(** * Airline cargo expert system: the inference engine

    A shallow embedding of [flight_available], [find_flight] and the
    [on_find_flight] callback of [airline_expert_system_gui.py], with the
    properties of the matching and ranking engine proved about it.  The
    other callbacks of the window (cargo limits, reset, booking, the flight
    list, the chart, the admin form) and the branch cascade of the chat loop
    of [chatbot.py] follow, with what they do together.

    Modelling choices.
    - A rule is the JSON object of [rules.json]; its fields are a record.
      Numbers ([max_weight], [carbon_footprint], the cargo weight) are
      integers, printed in decimal as Python's [str] prints an [int].  What
      depends on the values [nan], [inf] and [-inf], which [float] and
      [json.load] also yield (the ranking, [min] and [max]), is settled on
      the second embedding of the engine in module [Py].
    - Text is ASCII; [str.lower] maps [A-Z] to [a-z].
    - [datetime.datetime.now()] is an effect.  The state threaded through
      the code is the wall clock: the sequence of the readings still to
      come.  Every call of [flight_available] consumes one reading.
    - [list.sort] is a stable sort on the key with Python's tuple order;
      its result is modelled by a stable insertion sort. *)

From Stdlib Require Import ZArith List Bool Lia Ascii String.
From Stdlib Require Import Permutation Sorted DecimalString.
Import ListNotations.

Local Open Scope string_scope.
Local Open Scope Z_scope.

(** ** Rules *)

Record Rule := mkRule {
  flight : string;
  destination : string;
  max_weight : Z;
  airport_code : string;
  departure_time : string;
  carbon_footprint : Z
}.

(** ** Text helpers: [str.lower] and [str] of an integer *)

Definition lower_ascii (c : ascii) : ascii :=
  let n := nat_of_ascii c in
  if (Nat.leb 65 n && Nat.leb n 90)%bool then ascii_of_nat (n + 32) else c.

Fixpoint lower (s : string) : string :=
  match s with
  | EmptyString => EmptyString
  | String c rest => String (lower_ascii c) (lower rest)
  end.

Definition str_of_Z (z : Z) : string :=
  NilZero.string_of_int (Z.to_int z).

(** ** Wall-clock instants *)

Record DateTime := mkDateTime {
  year : Z;
  month : Z;
  day : Z;
  hour : Z;
  minute : Z;
  second : Z;
  microsecond : Z
}.

(** [datetime.__lt__] on naive instants: field by field, most significant
    first. *)
Fixpoint lex_ltb (a b : list Z) : bool :=
  match a, b with
  | x :: a', y :: b' => (x <? y) || ((x =? y) && lex_ltb a' b')
  | [], _ :: _ => true
  | _, [] => false
  end.

Definition dt_fields (t : DateTime) : list Z :=
  [year t; month t; day t; hour t; minute t; second t; microsecond t].

Definition dt_ltb (a b : DateTime) : bool :=
  lex_ltb (dt_fields a) (dt_fields b).

(** The fields of an instant that Python can build are in range. *)
Definition valid_time (t : DateTime) : Prop :=
  0 <= hour t < 24 /\ 0 <= minute t < 60 /\ 0 <= second t < 60
  /\ 0 <= microsecond t < 1000000.

(** Microseconds elapsed since midnight of the instant's own day. *)
Definition us_of_day (t : DateTime) : Z :=
  ((hour t * 60 + minute t) * 60 + second t) * 1000000 + microsecond t.

(** ** [datetime.strptime(s, "%H:%M")]

    The format compiles to the regular expression
    [(2[0-3]|[0-1]\d|\d):([0-5]\d|\d)], matched at the start of the text with
    the alternatives tried in this order; a match that leaves text over, or
    no match, raises [ValueError], which is [None] here. *)

Definition digit_of (c : ascii) : option Z :=
  let n := nat_of_ascii c in
  if (Nat.leb 48 n && Nat.leb n 57)%bool then Some (Z.of_nat (n - 48)) else None.

Definition digit_upto (bound : Z) (c : ascii) : option Z :=
  match digit_of c with
  | Some d => if d <=? bound then Some d else None
  | None => None
  end.

(** The ways [%H] can match a prefix, in the order the regex tries them, each
    with the text it leaves. *)
Definition match_H (s : string) : list (Z * string) :=
  match s with
  | String c1 (String c2 rest) =>
      (if Ascii.eqb c1 "2"
       then match digit_upto 3 c2 with
            | Some d => [(20 + d, rest)]
            | None => []
            end
       else [])
      ++ (match digit_upto 1 c1, digit_of c2 with
          | Some a, Some b => [(10 * a + b, rest)]
          | _, _ => []
          end)
      ++ (match digit_of c1 with
          | Some d => [(d, String c2 rest)]
          | None => []
          end)
  | String c1 EmptyString =>
      match digit_of c1 with
      | Some d => [(d, EmptyString)]
      | None => []
      end
  | EmptyString => []
  end.

Definition match_M (s : string) : list (Z * string) :=
  match s with
  | String c1 (String c2 rest) =>
      (match digit_upto 5 c1, digit_of c2 with
       | Some a, Some b => [(10 * a + b, rest)]
       | _, _ => []
       end)
      ++ (match digit_of c1 with
          | Some d => [(d, String c2 rest)]
          | None => []
          end)
  | String c1 EmptyString =>
      match digit_of c1 with
      | Some d => [(d, EmptyString)]
      | None => []
      end
  | EmptyString => []
  end.

(** First successful way through the whole pattern: hours, a colon, minutes. *)
Fixpoint first_match (hs : list (Z * string)) : option (Z * Z * string) :=
  match hs with
  | [] => None
  | (h, String c rest) :: hs' =>
      if Ascii.eqb c ":"
      then match match_M rest with
           | (m, left_over) :: _ => Some (h, m, left_over)
           | [] => first_match hs'
           end
      else first_match hs'
  | (_, EmptyString) :: hs' => first_match hs'
  end.

(** The result is the instant 1900-01-01 at the parsed hour and minute. *)
Definition strptime_HM (s : string) : option DateTime :=
  match first_match (match_H s) with
  | Some (h, m, EmptyString) => Some (mkDateTime 1900 1 1 h m 0 0)
  | _ => None
  end.

(** [dt.replace(year=, month=, day=)] *)
Definition replace_date (dt : DateTime) (y mo d : Z) : DateTime :=
  mkDateTime y mo d (hour dt) (minute dt) (second dt) (microsecond dt).

(** ** The wall clock as state *)

(** The readings the clock will give, next one first. *)
Definition Clock := nat -> DateTime.

Definition M (A : Type) : Type := Clock -> A * Clock.

Definition ret {A} (a : A) : M A := fun c => (a, c).

Definition bind {A B} (m : M A) (k : A -> M B) : M B :=
  fun c => let (a, c') := m c in k a c'.

Notation "x <- m ;; k" := (bind m (fun x => k))
  (at level 61, m at next level, right associativity).

(** [datetime.datetime.now()] *)
Definition datetime_now : M DateTime :=
  fun c => (c 0%nat, fun n => c (S n)).

(** A clock that stands still at [now]. *)
Definition frozen (now : DateTime) : Clock := fun _ => now.

(** ** [flight_available] *)

(** The body of the [try]: the departure instant on the date of [now], and
    the comparison; [None] is the exception the [except] clause catches. *)
Definition departure_on (rule : Rule) (now : DateTime) : option DateTime :=
  match strptime_HM (departure_time rule) with
  | Some t => Some (replace_date t (year now) (month now) (day now))
  | None => None
  end.

Definition available_at (rule : Rule) (now : DateTime) : bool :=
  match departure_on rule now with
  | Some dep => dt_ltb now dep
  | None => false
  end.

Definition flight_available (rule : Rule) : M bool :=
  now <- datetime_now ;;
  ret (available_at rule now).

(** ** [find_flight] *)

(** An element of [candidates]: the rule and its surplus capacity. *)
Definition Candidate : Type := Rule * Z.

(** The guard of the loop before the clock is consulted; [and] evaluates
    [flight_available] only when both tests pass. *)
Definition matches (rule : Rule) (cargo_weight : Z) (dest : string) : bool :=
  (lower (destination rule) =? lower dest)%string
  && (cargo_weight <=? max_weight rule).

(** The [for] loop, with [candidates] as the list built so far. *)
Fixpoint scan_rules (rules : list Rule) (cargo_weight : Z) (dest : string)
    (candidates : list Candidate) : M (list Candidate) :=
  match rules with
  | [] => ret candidates
  | rule :: rest =>
      ok <- (if matches rule cargo_weight dest
             then flight_available rule
             else ret false) ;;
      if ok
      then let surplus := max_weight rule - cargo_weight in
           scan_rules rest cargo_weight dest (candidates ++ [(rule, surplus)])
      else scan_rules rest cargo_weight dest candidates
  end.

(** The sort key [(x[1], x[0]["carbon_footprint"])] and Python's [<] on
    pairs. *)
Definition sort_key (x : Candidate) : Z * Z :=
  (snd x, carbon_footprint (fst x)).

Definition key_ltb (a b : Z * Z) : bool :=
  (fst a <? fst b) || ((fst a =? fst b) && (snd a <? snd b)).

(** [candidates.sort(key=...)]: stable, ascending. *)
Fixpoint insert_by_key (x : Candidate) (l : list Candidate) : list Candidate :=
  match l with
  | [] => [x]
  | y :: l' =>
      if key_ltb (sort_key y) (sort_key x)
      then y :: insert_by_key x l'
      else x :: l
  end.

Fixpoint sort_candidates (l : list Candidate) : list Candidate :=
  match l with
  | [] => []
  | x :: l' => insert_by_key x (sort_candidates l')
  end.

Definition no_flight_message : string :=
  "No available flight for the given cargo and destination.".

Definition explanation (best : Rule) (surplus : Z) : string :=
  "Flight " ++ flight best ++ " selected: surplus capacity "
  ++ str_of_Z surplus ++ " kg, carbon footprint "
  ++ str_of_Z (carbon_footprint best).

(** What [find_flight] does with the list the loop built. *)
Definition choose (candidates : list Candidate) : option Rule * string :=
  match candidates with
  | [] => (None, no_flight_message)
  | c0 :: _ =>
      let (best, surplus) := hd c0 (sort_candidates candidates) in
      (Some best, explanation best surplus)
  end.

Definition find_flight (rules : list Rule) (cargo_weight : Z) (dest : string)
    : M (option Rule * string) :=
  candidates <- scan_rules rules cargo_weight dest [] ;;
  ret (choose candidates).

(** The candidates and the answer of one run, the clock left aside. *)
Definition candidates_run (clock : Clock) (rules : list Rule)
    (cargo_weight : Z) (dest : string) : list Candidate :=
  fst (scan_rules rules cargo_weight dest [] clock).

Definition answer_run (clock : Clock) (rules : list Rule)
    (cargo_weight : Z) (dest : string) : option Rule * string :=
  fst (find_flight rules cargo_weight dest clock).

(** ** The [on_find_flight] callback *)

Record Gui := mkGui {
  rules : list Rule;
  weight_var : string;
  destination_var : string;
  recommended_flight : option Rule;
  result_label : string;
  explanation_label : string;
  status_var : string
}.

(** A [messagebox.showerror] call: title and text. *)
Definition Dialog : Type := string * string.

Section Callback.

(** Python's [float]: [None] is [ValueError]. *)
Variable float_of : string -> option Z.

Definition on_find_flight (self : Gui) : M (Gui * option Dialog) :=
  match float_of (weight_var self) with
  | None =>
      ret (self, Some ("Input Error", "Enter a valid number for weight."))
  | Some w =>
      r <- find_flight (rules self) w (destination_var self) ;;
      match r with
      | (Some best, exp) =>
          ret (mkGui (rules self) (weight_var self) (destination_var self)
                     (Some best)
                     ("Recommended Flight: " ++ flight best)
                     exp
                     "Flight recommended.",
               None)
      | (None, exp) =>
          ret (mkGui (rules self) (weight_var self) (destination_var self)
                     (recommended_flight self)
                     exp
                     ""
                     "No match.",
               None)
      end
  end.

End Callback.

(** ** Sample data: the rule set of the documented scenarios *)

Definition F1 : Rule := mkRule "F1" "Paris" 500 "CDG" "23:59" 10.
Definition F2 : Rule := mkRule "F2" "Paris" 480 "ORY" "23:59" 5.
Definition morning : DateTime := mkDateTime 2024 5 17 8 30 0 0.

(** ** The other callbacks of the window *)

(** What a callback puts on the screen besides the labels. *)
Record Row := mkRow {
  row_flight : string;
  row_max : Z;
  row_surplus : Z;
  row_airport : string;
  row_departure : string;
  row_carbon : Z
}.

Inductive Popup :=
| ShowError (title text : string)
| ShowInfo (title text : string)
| FlightsWindow (rows : list Row)
| ChartWindow (flights : list string) (surpluses : list Z)
| BoardingPass (details : string).

Definition set_status (self : Gui) (status : string) : Gui :=
  mkGui (rules self) (weight_var self) (destination_var self)
        (recommended_flight self) (result_label self)
        (explanation_label self) status.

(** *** [on_reset] *)

Definition on_reset (self : Gui) : Gui :=
  mkGui (rules self) "" (destination_var self) (recommended_flight self)
        "Recommended Flight:" "" "Ready".

(** *** [on_book_flight] *)

Definition newline : string := String (ascii_of_nat 10) EmptyString.

Definition boarding_pass (r : Rule) : string :=
  "Flight: " ++ flight r ++ newline
  ++ "Destination: " ++ destination r ++ newline
  ++ "Airport Code: " ++ airport_code r ++ newline
  ++ "Departure Time: " ++ departure_time r ++ newline
  ++ "Max Cargo Capacity: " ++ str_of_Z (max_weight r) ++ " kg" ++ newline
  ++ "Carbon Footprint: " ++ str_of_Z (carbon_footprint r).

Definition on_book_flight (self : Gui) : Gui * Popup :=
  match recommended_flight self with
  | None => (self, ShowInfo "No Flight" "No flight recommended to book.")
  | Some r => (set_status self "Boarding pass shown.",
               BoardingPass (boarding_pass r))
  end.

(** *** [on_show_all_flights], [on_show_chart] and the admin form *)

Definition row_of (m : Candidate) : Row :=
  let (r, s) := m in
  mkRow (flight r) (max_weight r) s (airport_code r) (departure_time r)
        (carbon_footprint r).

(** The loop of [on_show_chart]: two lists grown side by side. *)
Fixpoint chart_loop (rules : list Rule) (w : Z) (dest : string)
    (flights : list string) (surpluses : list Z)
    : M (list string * list Z) :=
  match rules with
  | [] => ret (flights, surpluses)
  | r :: rest =>
      ok <- (if matches r w dest then flight_available r else ret false) ;;
      if ok
      then chart_loop rest w dest (flights ++ [flight r])
                      (surpluses ++ [max_weight r - w])
      else chart_loop rest w dest flights surpluses
  end.

(** The six entry fields of the admin form. *)
Record Entries := mkEntries {
  entry_flight : string;
  entry_destination : string;
  entry_max_weight : string;
  entry_airport_code : string;
  entry_departure_time : string;
  entry_carbon_footprint : string
}.

Section MoreCallbacks.

Variable float_of : string -> option Z.

(** The loop is the one of [find_flight]; the rows are not sorted. *)
Definition on_show_all_flights (self : Gui) : M (Gui * Popup) :=
  match float_of (weight_var self) with
  | None =>
      ret (self, ShowError "Input Error" "Enter a valid number for weight.")
  | Some w =>
      matching <- scan_rules (rules self) w (destination_var self) [] ;;
      match matching with
      | [] =>
          ret (self,
               ShowInfo "No Flights" "No available flights match the criteria.")
      | _ :: _ =>
          ret (set_status self "Displayed all flights.",
               FlightsWindow (map row_of matching))
      end
  end.

Definition on_show_chart (self : Gui) : M (Gui * Popup) :=
  match float_of (weight_var self) with
  | None =>
      ret (self, ShowError "Input Error" "Enter a valid number for weight.")
  | Some w =>
      fs <- chart_loop (rules self) w (destination_var self) [] [] ;;
      match fst fs with
      | [] => ret (self, ShowInfo "No Data" "No available flights to chart.")
      | _ :: _ =>
          ret (set_status self "Chart displayed.",
               ChartWindow (fst fs) (snd fs))
      end
  end.

(** The [add] closure of [on_admin_mode].  The numeric fields are converted
    in the order of the dictionary display; [save_rules] then writes the list
    to [rules.json], which lies outside this model. *)
Definition add (self : Gui) (entries : Entries) : Gui * Popup :=
  match float_of (entry_max_weight entries) with
  | None => (self, ShowError "Input Error" "Check numeric fields.")
  | Some mw =>
      match float_of (entry_carbon_footprint entries) with
      | None => (self, ShowError "Input Error" "Check numeric fields.")
      | Some cf =>
          let new := mkRule (entry_flight entries) (entry_destination entries)
                            mw (entry_airport_code entries)
                            (entry_departure_time entries) cf in
          (mkGui (rules self ++ [new]) (weight_var self)
                 (destination_var self) (recommended_flight self)
                 (result_label self) (explanation_label self)
                 (status_var self),
           ShowInfo "Success" ("Flight " ++ flight new ++ " added."))
      end
  end.

End MoreCallbacks.

(** ** The chat loop of [chatbot.py] *)

(** Python's [needle in text] on strings. *)
Fixpoint contains (needle text : string) : bool :=
  String.prefix needle text
  || match text with
     | EmptyString => false
     | String _ rest => contains needle rest
     end.

Definition wake_up (channel text : string) : bool :=
  contains (lower channel) (lower text).

(** [strftime("%H:%M")]: two digits each. *)
Definition digit_char (d : Z) : ascii := ascii_of_nat (48 + Z.to_nat d).

Definition two_digits (n : Z) : string :=
  String (digit_char (n / 10)) (String (digit_char (n mod 10)) EmptyString).

Definition strftime_HM (t : DateTime) : string :=
  two_digits (hour t) ++ ":" ++ two_digits (minute t).

Definition action_time : M string :=
  now <- datetime_now ;;
  ret (strftime_HM now).

(** The branch of the loop body a text takes.  The replies of the polite and
    farewell branches are drawn at random and the last branch asks the
    language model; only the branch is kept here. *)
Inductive Branch := Greeting | TellTime | Polite | Farewell | ComeAgain | Converse.

Definition any_in (words : list string) (text : string) : bool :=
  existsb (fun i => contains i text) words.

Definition branch_of (channel text : string) : Branch :=
  if wake_up channel text then Greeting
  else if contains "time" text then TellTime
  else if any_in ["thank"; "thanks"] text then Polite
  else if any_in ["exit"; "close"; "bye"] text then Farewell
  else if (text =? "ERROR")%string then ComeAgain
  else Converse.

(** The flag [ex] after the body: the loop goes on while it is [true]. *)
Definition keeps_running (channel text : string) : bool :=
  match branch_of channel text with
  | Farewell => false
  | _ => true
  end.

(** ** The program on Python's numbers

    The capacity, the carbon footprint and the cargo weight are Python
    numbers: what [json.load] finds in the file and what [float] makes of an
    entry field, the values [nan], [inf] and [-inf] included.  This module
    embeds the engine once more on such numbers.  A finite number is held as
    an integer; rounding is left out.  [Num] keeps no mark of [int] against
    [float], so Python's [str] of a number is a parameter where a text is
    built. *)

Module Py.

Inductive Num := NaN | NegInf | Fin (z : Z) | PosInf.

(** [a < b], [a == b], [a <= b] and [a - b] on floats. *)
Definition ltb (a b : Num) : bool :=
  match a, b with
  | NaN, _ => false
  | _, NaN => false
  | NegInf, NegInf => false
  | NegInf, _ => true
  | Fin _, NegInf => false
  | Fin x, Fin y => x <? y
  | Fin _, PosInf => true
  | PosInf, _ => false
  end.

Definition eqb (a b : Num) : bool :=
  match a, b with
  | NegInf, NegInf => true
  | Fin x, Fin y => x =? y
  | PosInf, PosInf => true
  | _, _ => false
  end.

Definition leb (a b : Num) : bool := ltb a b || eqb a b.

Definition sub (a b : Num) : Num :=
  match a, b with
  | NaN, _ => NaN
  | _, NaN => NaN
  | Fin x, Fin y => Fin (x - y)
  | Fin _, PosInf => NegInf
  | Fin _, NegInf => PosInf
  | PosInf, PosInf => NaN
  | PosInf, _ => PosInf
  | NegInf, NegInf => NaN
  | NegInf, _ => NegInf
  end.

Record Rule := mkRule {
  flight : string;
  destination : string;
  max_weight : Num;
  airport_code : string;
  departure_time : string;
  carbon_footprint : Num
}.

(** [flight_available], as above. *)
Definition available_at (rule : Rule) (now : DateTime) : bool :=
  match strptime_HM (departure_time rule) with
  | Some t => dt_ltb now (replace_date t (year now) (month now) (day now))
  | None => false
  end.

Definition flight_available (rule : Rule) : M bool :=
  now <- datetime_now ;;
  ret (available_at rule now).

Definition Candidate : Type := Rule * Num.

Definition matches (rule : Rule) (cargo_weight : Num) (dest : string) : bool :=
  (lower (destination rule) =? lower dest)%string
  && leb cargo_weight (max_weight rule).

Fixpoint scan_rules (rules : list Rule) (cargo_weight : Num) (dest : string)
    (candidates : list Candidate) : M (list Candidate) :=
  match rules with
  | [] => ret candidates
  | rule :: rest =>
      ok <- (if matches rule cargo_weight dest
             then flight_available rule
             else ret false) ;;
      if ok
      then let surplus := sub (max_weight rule) cargo_weight in
           scan_rules rest cargo_weight dest (candidates ++ [(rule, surplus)])
      else scan_rules rest cargo_weight dest candidates
  end.

Definition sort_key (x : Candidate) : Num * Num :=
  (snd x, carbon_footprint (fst x)).

(** [<] on two pairs: the first place where the items are not [==] decides,
    by [<] of the two items there; pairs equal in both places are not
    [<]. *)
Definition key_ltb (a b : Num * Num) : bool :=
  if eqb (fst a) (fst b)
  then if eqb (snd a) (snd b) then false else ltb (snd a) (snd b)
  else ltb (fst a) (fst b).

Definition cand_ltb (x y : Candidate) : bool :=
  key_ltb (sort_key x) (sort_key y).

(** *** [list.sort]

    CPython's [listsort] on a list of fewer than 64 items: [count_run] takes
    the run the list begins with, reversed when it descends, and
    [binarysort] puts the remaining items into it one by one, each at the
    place a binary search gives.  From 64 items on CPython sorts several
    runs in this way and merges them; on keys without [nan] that gives the
    same list, the one stable sorted list there is (lemma
    [py_sort_unique] below). *)

(** The items that go on a run after [prev], and the items left. *)
Fixpoint ascending_run (prev : Candidate) (l : list Candidate)
    : list Candidate * list Candidate :=
  match l with
  | [] => ([], [])
  | x :: l' =>
      if cand_ltb x prev then ([], l)
      else let (run, rest) := ascending_run x l' in (x :: run, rest)
  end.

Fixpoint descending_run (prev : Candidate) (l : list Candidate)
    : list Candidate * list Candidate :=
  match l with
  | [] => ([], [])
  | x :: l' =>
      if cand_ltb x prev
      then let (run, rest) := descending_run x l' in (x :: run, rest)
      else ([], l)
  end.

Definition count_run (l : list Candidate) : list Candidate * list Candidate :=
  match l with
  | x0 :: x1 :: l' =>
      if cand_ltb x1 x0
      then let (run, rest) := descending_run x1 l' in
           (rev (x0 :: x1 :: run), rest)
      else let (run, rest) := ascending_run x1 l' in
           (x0 :: x1 :: run, rest)
  | _ => (l, [])
  end.

(** The binary search of [binarysort] in [a] between the places [l] and
    [r]; the loop runs at most once per item. *)
Fixpoint bisect (fuel : nat) (pivot : Candidate) (a : list Candidate)
    (l r : nat) : nat :=
  match fuel with
  | O => l
  | S fuel' =>
      if (l <? r)%nat
      then let p := (l + (r - l) / 2)%nat in
           if cand_ltb pivot (nth p a pivot)
           then bisect fuel' pivot a l p
           else bisect fuel' pivot a (S p) r
      else l
  end.

Definition insert_pivot (a : list Candidate) (pivot : Candidate)
    : list Candidate :=
  let k := bisect (List.length a) pivot a 0 (List.length a) in
  (firstn k a ++ pivot :: skipn k a)%list.

Definition binarysort (run rest : list Candidate) : list Candidate :=
  fold_left insert_pivot rest run.

Definition sort (l : list Candidate) : list Candidate :=
  let (run, rest) := count_run l in binarysort run rest.

(** *** [find_flight] *)

(** The candidate [find_flight] takes, when there is one. *)
Definition selected (candidates : list Candidate) : option Candidate :=
  match candidates with
  | [] => None
  | c0 :: _ => Some (hd c0 (sort candidates))
  end.

Definition candidates_run (clock : Clock) (rules : list Rule)
    (cargo_weight : Num) (dest : string) : list Candidate :=
  fst (scan_rules rules cargo_weight dest [] clock).

(** [min] and [max] keep the first item and replace it by a later item that
    is [<], respectively [>], the one kept. *)
Definition min_of (x : Num) (l : list Num) : Num :=
  fold_left (fun kept item => if ltb item kept then item else kept) l x.

Definition max_of (x : Num) (l : list Num) : Num :=
  fold_left (fun kept item => if ltb kept item then item else kept) l x.

(** [update_cargo_limits]: the rules of the city and the two numbers of the
    label. *)
Definition city_rules (rules : list Rule) (city : string) : list Rule :=
  filter (fun r => (lower (destination r) =? lower city)%string) rules.

Definition cargo_limits (rules : list Rule) (city : string)
    : option (Num * Num) :=
  match map max_weight (city_rules rules city) with
  | [] => None
  | x :: l => Some (min_of x l, max_of x l)
  end.

Section Text.

(** Python's [str] of a number. *)
Variable str_of : Num -> string.

Definition explanation (best : Rule) (surplus : Num) : string :=
  "Flight " ++ flight best ++ " selected: surplus capacity "
  ++ str_of surplus ++ " kg, carbon footprint "
  ++ str_of (carbon_footprint best).

Definition choose (candidates : list Candidate) : option Rule * string :=
  match selected candidates with
  | None => (None, no_flight_message)
  | Some (best, surplus) => (Some best, explanation best surplus)
  end.

Definition find_flight (rules : list Rule) (cargo_weight : Num)
    (dest : string) : M (option Rule * string) :=
  candidates <- scan_rules rules cargo_weight dest [] ;;
  ret (choose candidates).

(** U+2013, as its three UTF-8 bytes. *)
Definition en_dash : string :=
  String (ascii_of_nat 226) (String (ascii_of_nat 128)
    (String (ascii_of_nat 147) EmptyString)).

(** The text [update_cargo_limits] puts on the label. *)
Definition update_cargo_limits (rules : list Rule) (city : string) : string :=
  match cargo_limits rules city with
  | Some (mins, maxs) =>
      "Allowed weight: " ++ str_of mins ++ en_dash ++ str_of maxs ++ " kg"
  | None => "No flights for selected city."
  end.

End Text.

(** The rule and the text of one run. *)
Definition answer_run (str_of : Num -> string) (clock : Clock)
    (rules : list Rule) (cargo_weight : Num) (dest : string)
    : option Rule * string :=
  fst (find_flight str_of rules cargo_weight dest clock).

(** A key without [nan]. *)
Definition is_number (a : Num) : Prop := a <> NaN.

Definition good_key (k : Num * Num) : Prop :=
  is_number (fst k) /\ is_number (snd k).

Definition good (c : Candidate) : Prop := good_key (sort_key c).

(** [x] may stand before [y] in a ranked list of candidates with good
    keys. *)
Definition key_le (a b : Num * Num) : Prop := key_ltb b a = false.

Definition ranks_before (x y : Candidate) : Prop :=
  good x /\ good y /\ key_le (sort_key x) (sort_key y).

Definition has_key (k : Num * Num) (c : Candidate) : bool :=
  eqb (fst (sort_key c)) (fst k) && eqb (snd (sort_key c)) (snd k).

Definition with_key (k : Num * Num) (l : list Candidate) : list Candidate :=
  filter (has_key k) l.

Definition eligible (now : DateTime) (cargo_weight : Num) (dest : string)
    (rule : Rule) : bool :=
  matches rule cargo_weight dest && available_at rule now.

Definition with_surplus (cargo_weight : Num) (rule : Rule) : Candidate :=
  (rule, sub (max_weight rule) cargo_weight).

(** Sample rules: one surplus, carbon footprints 5, [nan] and 3. *)
Definition A5 : Rule := mkRule "A" "Oslo" (Fin 120) "OSL" "23:59" (Fin 5).
Definition Bnan : Rule := mkRule "B" "Oslo" (Fin 120) "OSL" "23:59" NaN.
Definition C3 : Rule := mkRule "C" "Oslo" (Fin 120) "OSL" "23:59" (Fin 3).

(** Seven rules of one capacity, by carbon footprint. *)
Definition cost_rule (name : string) (cost : Num) : Rule :=
  mkRule name "Oslo" (Fin 120) "OSL" "23:59" cost.

Definition seven : list Rule :=
  [cost_rule "r0" (Fin 0); cost_rule "r1" (Fin 0); cost_rule "r2" (Fin 9);
   cost_rule "r3" NaN; cost_rule "r4" (Fin 1); cost_rule "r5" (Fin 0);
   cost_rule "r6" (Fin 1)].

End Py.

(** ** Integers among Python's numbers *)

(** A rule, and a candidate, of the integer embedding as one on Python's
    numbers. *)
Definition as_py_rule (r : Rule) : Py.Rule :=
  Py.mkRule (flight r) (destination r) (Py.Fin (max_weight r))
            (airport_code r) (departure_time r)
            (Py.Fin (carbon_footprint r)).

Definition as_py_candidate (c : Candidate) : Py.Candidate :=
  (as_py_rule (fst c), Py.Fin (snd c)).

(** [str] of a number that is an integer. *)
Definition str_of_int (n : Py.Num) : string :=
  match n with
  | Py.Fin z => str_of_Z z
  | _ => EmptyString
  end.

(** ** Vocabulary of the properties *)

(** Python's order on the sort keys, as propositions. *)
Definition key_lt (a b : Z * Z) : Prop :=
  fst a < fst b \/ (fst a = fst b /\ snd a < snd b).

Definition key_le (a b : Z * Z) : Prop :=
  fst a < fst b \/ (fst a = fst b /\ snd a <= snd b).

(** [x] may stand before [y] in a ranked list. *)
Definition ranks_before (x y : Candidate) : Prop :=
  key_le (sort_key x) (sort_key y).

(** The candidates of one key, in the order of the list. *)
Definition has_key (k : Z * Z) (c : Candidate) : bool :=
  (fst (sort_key c) =? fst k) && (snd (sort_key c) =? snd k).

Definition with_key (k : Z * Z) (l : list Candidate) : list Candidate :=
  filter (has_key k) l.

(** A rule passes the three tests at the instant [now]. *)
Definition eligible (now : DateTime) (cargo_weight : Z) (dest : string)
    (rule : Rule) : bool :=
  matches rule cargo_weight dest && available_at rule now.

Definition with_surplus (cargo_weight : Z) (rule : Rule) : Candidate :=
  (rule, max_weight rule - cargo_weight).

(** ** More sample data *)

(** Two rules of one capacity; the second pollutes less. *)
Definition G1 : Rule := mkRule "G1" "Oslo" 120 "OSL" "22:10" 8.
Definition G2 : Rule := mkRule "G2" "Oslo" 120 "TRF" "21:40" 3.

(** A small aircraft on the Paris route. *)
Definition F3 : Rule := mkRule "F3" "Paris" 100 "LBG" "23:59" 2.

(** A rule whose departure time is no time of day. *)
Definition F_bad : Rule := mkRule "F0" "Paris" 460 "BVA" "25:00" 1.

Definition just_before : DateTime := mkDateTime 2024 5 17 23 58 59 999999.
Definition at_departure : DateTime := mkDateTime 2024 5 17 23 59 0 0.

(** Two clocks that show the same instant when the evaluation starts; the
    second has reached 23:59 by the time the second rule is tested. *)
Definition clock_still : Clock := frozen just_before.
Definition clock_ticking : Clock :=
  fun n => match n with O => just_before | S _ => at_departure end.

(** A stand-in for Python's [float] on the two texts used below. *)
Definition float_of_sample (s : string) : option Z :=
  if (s =? "-5")%string then Some (-5)
  else if (s =? "450")%string then Some 450
  else None.

Definition gui_sample (weight_text dest : string) : Gui :=
  mkGui [F1; F2] weight_text dest None "Recommended Flight:" "" "Ready".

(** * Properties *)

(** ** The order on sort keys *)

Lemma key_ltb_lt a b : key_ltb a b = true <-> key_lt a b.
Proof.
  unfold key_ltb, key_lt.
  rewrite orb_true_iff, andb_true_iff, !Z.ltb_lt, Z.eqb_eq. tauto.
Qed.

Lemma key_ltb_ge a b : key_ltb a b = false <-> key_le b a.
Proof.
  unfold key_ltb, key_le.
  rewrite orb_false_iff, andb_false_iff, !Z.ltb_ge, Z.eqb_neq. lia.
Qed.

Lemma key_le_refl a : key_le a a.
Proof. unfold key_le. lia. Qed.

Lemma key_le_trans a b c : key_le a b -> key_le b c -> key_le a c.
Proof. unfold key_le. lia. Qed.

Lemma key_le_total a b : key_le a b \/ key_le b a.
Proof. unfold key_le. lia. Qed.

Lemma key_le_antisym a b : key_le a b -> key_le b a -> a = b.
Proof.
  destruct a, b. unfold key_le. simpl. intros H1 H2.
  f_equal; lia.
Qed.

Lemma ranks_before_trans : forall x y z,
  ranks_before x y -> ranks_before y z -> ranks_before x z.
Proof. unfold ranks_before. intros x y z. apply key_le_trans. Qed.

(** ** The sort: a sorted, stable rearrangement *)

Lemma insert_by_key_perm x l : Permutation (insert_by_key x l) (x :: l).
Proof.
  induction l as [|y l IH]; simpl.
  - apply Permutation_refl.
  - destruct (key_ltb (sort_key y) (sort_key x)).
    + rewrite IH. apply perm_swap.
    + apply Permutation_refl.
Qed.

Lemma sort_candidates_perm l : Permutation (sort_candidates l) l.
Proof.
  induction l as [|x l IH]; simpl.
  - constructor.
  - rewrite insert_by_key_perm. now constructor.
Qed.

Lemma insert_by_key_hd x l y :
  HdRel ranks_before y l -> ranks_before y x ->
  HdRel ranks_before y (insert_by_key x l).
Proof.
  intros Hl Hx. destruct l as [|z l]; simpl.
  - now constructor.
  - destruct (key_ltb (sort_key z) (sort_key x)); constructor.
    + now inversion Hl.
    + exact Hx.
Qed.

Lemma insert_by_key_sorted x l :
  Sorted ranks_before l -> Sorted ranks_before (insert_by_key x l).
Proof.
  induction 1 as [|y l Hs IH Hhd]; simpl.
  - repeat constructor.
  - destruct (key_ltb (sort_key y) (sort_key x)) eqn:E.
    + constructor; [exact IH|].
      apply insert_by_key_hd; [exact Hhd|].
      apply key_ltb_lt in E. unfold ranks_before, key_lt, key_le in *. lia.
    + constructor; [now constructor|].
      constructor. now apply key_ltb_ge in E.
Qed.

Lemma sort_candidates_sorted l : Sorted ranks_before (sort_candidates l).
Proof.
  induction l as [|x l IH]; simpl.
  - constructor.
  - now apply insert_by_key_sorted.
Qed.

(** On a list that is already in order the sort changes nothing. *)
Lemma sort_candidates_fixed l :
  Sorted ranks_before l -> sort_candidates l = l.
Proof.
  induction 1 as [|x l Hs IH Hhd]; simpl; [reflexivity|].
  rewrite IH. destruct Hhd as [|y l' Hxy]; simpl; [reflexivity|].
  apply key_ltb_ge in Hxy. now rewrite Hxy.
Qed.

Lemma has_key_eq k c : has_key k c = true <-> sort_key c = k.
Proof.
  unfold has_key. rewrite andb_true_iff, !Z.eqb_eq.
  destruct (sort_key c), k. simpl. split.
  - intros [-> ->]. reflexivity.
  - intros H. injection H as -> ->. auto.
Qed.

Lemma with_key_cons k x l :
  with_key k (x :: l) = if has_key k x then x :: with_key k l else with_key k l.
Proof. reflexivity. Qed.

Lemma insert_by_key_with_key k x l :
  with_key k (insert_by_key x l) = with_key k (x :: l).
Proof.
  induction l as [|y l IH]; [reflexivity|].
  simpl insert_by_key.
  destruct (key_ltb (sort_key y) (sort_key x)) eqn:E; [|reflexivity].
  apply key_ltb_lt in E.
  rewrite (with_key_cons k y), IH, !with_key_cons.
  destruct (has_key k x) eqn:Ex; [|reflexivity].
  destruct (has_key k y) eqn:Ey; [|reflexivity].
  exfalso.
  apply has_key_eq in Ex, Ey. rewrite Ex, Ey in E. unfold key_lt in E. lia.
Qed.

Lemma sort_candidates_with_key k l :
  with_key k (sort_candidates l) = with_key k l.
Proof.
  induction l as [|x l IH]; [reflexivity|].
  simpl sort_candidates.
  now rewrite insert_by_key_with_key, !with_key_cons, IH.
Qed.

(** The head of the ranked list is a candidate no other one beats. *)
Lemma sort_candidates_hd c0 l :
  let best := hd c0 (sort_candidates (c0 :: l)) in
  In best (c0 :: l) /\ forall c, In c (c0 :: l) -> ranks_before best c.
Proof.
  intros best.
  pose proof (sort_candidates_perm (c0 :: l)) as HP.
  pose proof (sort_candidates_sorted (c0 :: l)) as HS.
  subst best.
  destruct (sort_candidates (c0 :: l)) as [|b s] eqn:E.
  - apply Permutation_nil in HP. discriminate.
  - simpl. split.
    + apply (Permutation_in _ HP). now left.
    + intros c Hc.
      apply (Permutation_in _ (Permutation_sym HP)) in Hc.
      apply Sorted_StronglySorted in HS; [|exact ranks_before_trans].
      inversion HS as [|? ? _ Hall]; subst.
      destruct Hc as [<-|Hc].
      * apply key_le_refl.
      * rewrite Forall_forall in Hall. now apply Hall.
Qed.

(** A stable sort has one possible result: a list in key order that keeps,
    for every key, the candidates of that key as they stand in [l] is the
    list [sort_candidates l].  The insertion sort above therefore returns what
    [list.sort] returns. *)
Lemma with_key_In k c l : In c (with_key k l) -> In c l /\ sort_key c = k.
Proof.
  unfold with_key. rewrite filter_In. intros [Hin Hk].
  split; [exact Hin | now apply has_key_eq].
Qed.

Lemma has_key_own c : has_key (sort_key c) c = true.
Proof. now apply has_key_eq. Qed.

Lemma sorted_hd_least x l c :
  Sorted ranks_before (x :: l) -> In c (x :: l) -> ranks_before x c.
Proof.
  intros HS Hin.
  apply Sorted_StronglySorted in HS; [|exact ranks_before_trans].
  inversion HS as [|? ? _ Hall]; subst.
  destruct Hin as [<-|Hin].
  - apply key_le_refl.
  - rewrite Forall_forall in Hall. now apply Hall.
Qed.

Lemma stable_sorted_unique l1 : forall l2,
  Sorted ranks_before l1 -> Sorted ranks_before l2 ->
  (forall k, with_key k l1 = with_key k l2) ->
  l1 = l2.
Proof.
  induction l1 as [|x l1 IH]; intros [|y l2] S1 S2 H.
  - reflexivity.
  - specialize (H (sort_key y)). rewrite with_key_cons, has_key_own in H.
    discriminate H.
  - specialize (H (sort_key x)). rewrite with_key_cons, has_key_own in H.
    discriminate H.
  - assert (Hxy : ranks_before x y).
    { apply (sorted_hd_least x l1); [exact S1|].
      apply (with_key_In (sort_key y)). rewrite H, with_key_cons, has_key_own.
      now left. }
    assert (Hyx : ranks_before y x).
    { apply (sorted_hd_least y l2); [exact S2|].
      apply (with_key_In (sort_key x)). rewrite <- H, with_key_cons, has_key_own.
      now left. }
    assert (Hk : sort_key x = sort_key y) by now apply key_le_antisym.
    assert (Hx : x = y).
    { specialize (H (sort_key x)).
      rewrite !with_key_cons, has_key_own in H.
      rewrite Hk, has_key_own in H. now injection H. }
    subst y. f_equal. apply IH.
    + now inversion S1.
    + now inversion S2.
    + intros k. specialize (H k). rewrite !with_key_cons in H.
      destruct (has_key k x); [now injection H | exact H].
Qed.

Lemma sort_candidates_unique l l' :
  Sorted ranks_before l' ->
  (forall k, with_key k l' = with_key k l) ->
  l' = sort_candidates l.
Proof.
  intros HS HK. apply stable_sorted_unique.
  - exact HS.
  - apply sort_candidates_sorted.
  - intros k. now rewrite sort_candidates_with_key.
Qed.

(** ** What [strptime] can return *)

Lemma digit_of_range c d : digit_of c = Some d -> 0 <= d <= 9.
Proof.
  unfold digit_of.
  destruct (Nat.leb 48 (nat_of_ascii c) && Nat.leb (nat_of_ascii c) 57)%bool
    eqn:E; [|discriminate].
  apply andb_true_iff in E. destruct E as [E1 E2].
  apply Nat.leb_le in E1, E2. intros H. injection H as <-. lia.
Qed.

Lemma digit_upto_range b c d : digit_upto b c = Some d -> 0 <= d <= b.
Proof.
  unfold digit_upto. destruct (digit_of c) as [d'|] eqn:E; [|discriminate].
  apply digit_of_range in E.
  destruct (d' <=? b) eqn:Eb; [|discriminate].
  apply Z.leb_le in Eb. intros H. injection H as <-. lia.
Qed.

Ltac digits :=
  repeat match goal with
  | H : digit_of _ = Some _ |- _ => apply digit_of_range in H
  | H : digit_upto _ _ = Some _ |- _ => apply digit_upto_range in H
  end.

Ltac one_way :=
  first [ apply Forall_nil
        | apply Forall_cons; [digits; cbn [fst]; lia | apply Forall_nil] ].

Lemma match_H_range s : Forall (fun p => 0 <= fst p < 24) (match_H s).
Proof.
  destruct s as [|c1 [|c2 rest]]; unfold match_H.
  - constructor.
  - destruct (digit_of c1) eqn:E; one_way.
  - apply Forall_app; split; [|apply Forall_app; split].
    + destruct (Ascii.eqb c1 "2"); [|constructor].
      destruct (digit_upto 3 c2) eqn:E; one_way.
    + destruct (digit_upto 1 c1) eqn:E1; [|constructor].
      destruct (digit_of c2) eqn:E2; one_way.
    + destruct (digit_of c1) eqn:E; one_way.
Qed.

Lemma match_M_range s : Forall (fun p => 0 <= fst p < 60) (match_M s).
Proof.
  destruct s as [|c1 [|c2 rest]]; unfold match_M.
  - constructor.
  - destruct (digit_of c1) eqn:E; one_way.
  - apply Forall_app; split.
    + destruct (digit_upto 5 c1) eqn:E1; [|constructor].
      destruct (digit_of c2) eqn:E2; one_way.
    + destruct (digit_of c1) eqn:E; one_way.
Qed.

Lemma first_match_range hs h m rest :
  Forall (fun p => 0 <= fst p < 24) hs ->
  first_match hs = Some (h, m, rest) ->
  0 <= h < 24 /\ 0 <= m < 60.
Proof.
  induction 1 as [|[h0 s0] hs Hh _ IH]; simpl; [discriminate|].
  destruct s0 as [|c s0]; [exact IH|].
  destruct (Ascii.eqb c ":"); [|exact IH].
  pose proof (match_M_range s0) as HM.
  destruct (match_M s0) as [|[m0 r0] ms]; [exact IH|].
  intros H. injection H as <- <- <-.
  inversion HM; subst. simpl in *. lia.
Qed.

Lemma strptime_HM_range s t :
  strptime_HM s = Some t ->
  0 <= hour t < 24 /\ 0 <= minute t < 60 /\ second t = 0 /\ microsecond t = 0.
Proof.
  unfold strptime_HM.
  destruct (first_match (match_H s)) as [[[h m] rest]|] eqn:E; [|discriminate].
  destruct rest; [|discriminate].
  intros H. injection H as <-. simpl.
  apply first_match_range in E; [|apply match_H_range]. lia.
Qed.

(** ** Comparing two instants of one day *)

Lemma dt_ltb_same_day a b :
  year a = year b -> month a = month b -> day a = day b ->
  valid_time a -> valid_time b ->
  dt_ltb a b = true <-> us_of_day a < us_of_day b.
Proof.
  intros Hy Hm Hd Va Vb. unfold dt_ltb, dt_fields, us_of_day, valid_time in *.
  simpl. rewrite Hy, Hm, Hd.
  rewrite !Z.ltb_irrefl, !Z.eqb_refl. simpl.
  rewrite !orb_true_iff, !andb_true_iff, !orb_true_iff, !andb_true_iff,
    !orb_true_iff, !andb_true_iff, !Z.ltb_lt, !Z.eqb_eq.
  lia.
Qed.

(** ** The loop *)

Lemma scan_rules_frozen now rules w d : forall acc,
  scan_rules rules w d acc (frozen now)
  = ((acc ++ map (with_surplus w) (filter (eligible now w d) rules))%list,
     frozen now).
Proof.
  induction rules as [|r rest IH]; intros acc; simpl.
  - unfold ret. now rewrite app_nil_r.
  - unfold bind, eligible.
    destruct (matches r w d); simpl.
    + unfold flight_available, bind, datetime_now, ret.
      change (fun n : nat => frozen now (S n)) with (frozen now).
      change (frozen now 0%nat) with now.
      destruct (available_at r now).
      * rewrite IH, <- app_assoc. reflexivity.
      * apply IH.
    + unfold ret. apply IH.
Qed.

Lemma candidates_run_frozen now rules w d :
  candidates_run (frozen now) rules w d
  = map (with_surplus w) (filter (eligible now w d) rules).
Proof. unfold candidates_run. now rewrite scan_rules_frozen. Qed.

Lemma answer_run_choose clock rules w d :
  answer_run clock rules w d = choose (candidates_run clock rules w d).
Proof.
  unfold answer_run, candidates_run, find_flight, bind, ret.
  now destruct (scan_rules rules w d [] clock).
Qed.

(** Clocks that give the same readings give the same run. *)
Lemma scan_rules_ext rules w d : forall acc c1 c2,
  (forall n, c1 n = c2 n) ->
  fst (scan_rules rules w d acc c1) = fst (scan_rules rules w d acc c2).
Proof.
  induction rules as [|r rest IH]; intros acc c1 c2 H; simpl.
  - reflexivity.
  - unfold bind. destruct (matches r w d).
    + unfold flight_available, bind, datetime_now, ret. rewrite (H 0%nat).
      destruct (available_at r (c2 0%nat)); apply IH; intros n; apply H.
    + unfold ret. now apply IH.
Qed.

(** The loop over a rule set in two parts: the second part goes on with the
    list and the clock the first part leaves. *)
Lemma scan_rules_app l1 l2 w d : forall acc clock,
  scan_rules (l1 ++ l2) w d acc clock
  = let (acc', clock') := scan_rules l1 w d acc clock in
    scan_rules l2 w d acc' clock'.
Proof.
  induction l1 as [|r rest IH]; intros acc clock; simpl.
  - reflexivity.
  - unfold bind.
    destruct ((if matches r w d then flight_available r else ret false) clock)
      as [ok clock'].
    destruct ok; apply IH.
Qed.

(** The list built so far only grows at its end. *)
Lemma scan_rules_acc rules w d : forall acc clock,
  scan_rules rules w d acc clock
  = ((acc ++ fst (scan_rules rules w d [] clock))%list,
     snd (scan_rules rules w d [] clock)).
Proof.
  induction rules as [|r rest IH]; intros acc clock; simpl.
  - unfold ret. simpl. now rewrite app_nil_r.
  - unfold bind.
    destruct ((if matches r w d then flight_available r else ret false) clock)
      as [ok clock'].
    destruct ok.
    + rewrite (IH (acc ++ _)%list), (IH [_]). simpl.
      now rewrite <- app_assoc.
    + apply IH.
Qed.

(** The loop at one rule, for any clock: the rules before it give their
    candidates, the rule is tested at the reading the clock then shows, and
    the rules after it are tested with the clock that is left. *)
Lemma candidates_run_split clock pre r post w d :
  let clock1 := snd (scan_rules pre w d [] clock) in
  let test := (if matches r w d then flight_available r else ret false) clock1 in
  candidates_run clock (pre ++ r :: post) w d
  = (candidates_run clock pre w d
     ++ (if fst test then [(r, max_weight r - w)] else [])
     ++ candidates_run (snd test) post w d)%list.
Proof.
  intros clock1 test. unfold candidates_run.
  rewrite scan_rules_app.
  destruct (scan_rules pre w d [] clock) as [acc1 c1] eqn:E1.
  subst clock1. cbn [fst snd] in *. simpl scan_rules. unfold bind.
  subst test.
  destruct ((if matches r w d then flight_available r else ret false) c1)
    as [ok c2].
  cbn [fst snd]. destruct ok.
  - rewrite (scan_rules_acc post w d (acc1 ++ _)%list). cbn [fst].
    now rewrite <- app_assoc.
  - now rewrite (scan_rules_acc post w d acc1).
Qed.

(** Whatever the clock does, a property that holds of every rule passing the
    guard holds of every candidate. *)
Lemma scan_rules_Forall (P : Candidate -> Prop) rules w d :
  (forall r, In r rules -> matches r w d = true -> P (with_surplus w r)) ->
  forall acc clock,
    Forall P acc -> Forall P (fst (scan_rules rules w d acc clock)).
Proof.
  induction rules as [|r rest IH]; intros HP acc clock Hacc; simpl.
  - exact Hacc.
  - assert (HP' : forall r', In r' rest -> matches r' w d = true ->
                             P (with_surplus w r'))
      by (intros r' Hin; apply HP; now right).
    unfold bind. destruct (matches r w d) eqn:Em.
    + unfold flight_available, bind, datetime_now, ret.
      destruct (available_at r (clock 0%nat)).
      * apply IH; [exact HP'|].
        apply Forall_app; split; [exact Hacc|].
        constructor; [|constructor]. apply HP; [now left|exact Em].
      * now apply IH.
    + unfold ret. now apply IH.
Qed.

Lemma matches_iff r w d :
  matches r w d = true
  <-> lower (destination r) = lower d /\ w <= max_weight r.
Proof.
  unfold matches. now rewrite andb_true_iff, String.eqb_eq, Z.leb_le.
Qed.

Lemma candidates_run_sound clock rules w d r s :
  In (r, s) (candidates_run clock rules w d) ->
  In r rules /\ matches r w d = true /\ s = max_weight r - w.
Proof.
  unfold candidates_run. intros Hin.
  pose proof (scan_rules_Forall
    (fun c => In (fst c) rules /\ matches (fst c) w d = true
              /\ snd c = max_weight (fst c) - w) rules w d) as H.
  cbv beta in H.
  assert (HF := H (fun r0 Hr Hm => conj Hr (conj Hm eq_refl)) [] clock
                  (Forall_nil _)).
  rewrite Forall_forall in HF. exact (HF _ Hin).
Qed.

Lemma choose_none l : fst (choose l) = None <-> l = [].
Proof.
  destruct l as [|c0 l]; simpl.
  - tauto.
  - destruct (hd c0 (insert_by_key c0 (sort_candidates l))).
    simpl. split; discriminate.
Qed.

Lemma choose_some c0 l :
  let best := hd c0 (sort_candidates (c0 :: l)) in
  choose (c0 :: l) = (Some (fst best), explanation (fst best) (snd best)).
Proof.
  simpl. now destruct (hd c0 (insert_by_key c0 (sort_candidates l))).
Qed.

(** ** The documented scenarios *)

Example scenario_A :
  candidates_run (frozen morning) [F1; F2] 450 "Paris" = [(F1, 50); (F2, 30)]
  /\ fst (answer_run (frozen morning) [F1; F2] 450 "Paris") = Some F2.
Proof. split; reflexivity. Qed.

Example scenario_B :
  candidates_run (frozen morning) [F1; F2] 490 "Paris" = [(F1, 10)]
  /\ fst (answer_run (frozen morning) [F1; F2] 490 "Paris") = Some F1.
Proof. split; reflexivity. Qed.

Example scenario_C :
  answer_run (frozen morning) [F1; F2] 600 "Paris" = (None, no_flight_message).
Proof. reflexivity. Qed.

Example scenario_E :
  candidates_run (frozen morning) [G1; G2] 100 "oslo" = [(G1, 20); (G2, 20)]
  /\ answer_run (frozen morning) [G1; G2] 100 "oslo"
     = (Some G2, "Flight G2 selected: surplus capacity 20 kg, carbon footprint 3").
Proof. split; reflexivity. Qed.

Example departed_flight_is_skipped :
  fst (answer_run (frozen at_departure) [F1; F2] 450 "Paris") = None.
Proof. reflexivity. Qed.

(** * The availability predicate *)

(** C4.  For a rule whose departure time parses, [flight_available] answers
    by comparing the clock reading [now] with the departure hour and minute
    put on the calendar date of [now]: it returns [true] exactly when that
    departure instant is strictly later than [now].  Both instants lie on one
    day, so later means more microseconds since midnight.  A departure at
    [now] exactly, or before it, gives [false]. *)
Theorem flight_available_iff_strictly_later
    (rule : Rule) (clock : Clock) (t : DateTime) :
  strptime_HM (departure_time rule) = Some t ->
  valid_time (clock 0%nat) ->
  let now := clock 0%nat in
  let dep := replace_date t (year now) (month now) (day now) in
  fst (flight_available rule clock) = dt_ltb now dep
  /\ (fst (flight_available rule clock) = true
      <-> us_of_day now < us_of_day dep)
  /\ (us_of_day dep <= us_of_day now
      -> fst (flight_available rule clock) = false)
  /\ us_of_day dep = (hour t * 60 + minute t) * 60000000.
Proof.
  intros Hparse Hnow now dep.
  assert (Hcode : fst (flight_available rule clock) = dt_ltb now dep).
  { unfold flight_available, bind, datetime_now, ret, available_at,
      departure_on. simpl. now rewrite Hparse. }
  apply strptime_HM_range in Hparse.
  destruct Hparse as (Hh & Hm & Hs & Hus).
  assert (Hiff : dt_ltb now dep = true <-> us_of_day now < us_of_day dep).
  { apply dt_ltb_same_day; try reflexivity; [exact Hnow|].
    unfold valid_time, dep. simpl. lia. }
  repeat split.
  - exact Hcode.
  - rewrite Hcode. apply Hiff.
  - rewrite Hcode. apply Hiff.
  - intros Hle. rewrite Hcode.
    destruct (dt_ltb now dep); [|reflexivity].
    assert (us_of_day now < us_of_day dep) by now apply Hiff. lia.
  - unfold us_of_day, dep. simpl. lia.
Qed.

Lemma flight_available_iff_strictly_later_witness :
  fst (flight_available F1 (frozen morning)) = true
  /\ us_of_day morning < us_of_day (mkDateTime 2024 5 17 23 59 0 0).
Proof.
  pose proof (flight_available_iff_strictly_later F1 (frozen morning)
                (mkDateTime 1900 1 1 23 59 0 0)) as H.
  assert (Hp : strptime_HM (departure_time F1)
               = Some (mkDateTime 1900 1 1 23 59 0 0)) by reflexivity.
  assert (Hv : valid_time (frozen morning 0%nat))
    by (unfold valid_time; simpl; lia).
  destruct (H Hp Hv) as (_ & Hiff & _).
  assert (Hlt : us_of_day morning < us_of_day (mkDateTime 2024 5 17 23 59 0 0))
    by (vm_compute; reflexivity).
  split; [apply Hiff; exact Hlt | exact Hlt].
Defined.

(** C5.  A rule whose departure time does not parse is unavailable at every
    clock reading: [flight_available] returns [false] and raises nothing.
    The loop of [find_flight] adds no candidate for it and goes on with the
    remaining rules, so with the clock standing at [now] the rule set answers
    as it does with that rule taken out. *)
Theorem unparsable_departure_is_unavailable (bad : Rule) :
  strptime_HM (departure_time bad) = None ->
  (forall clock, fst (flight_available bad clock) = false)
  /\ (forall clock rest w d acc,
        scan_rules (bad :: rest) w d acc clock
        = scan_rules rest w d acc
            (if matches bad w d then fun n => clock (S n) else clock))
  /\ (forall now pre post w d,
        candidates_run (frozen now) (pre ++ bad :: post) w d
        = candidates_run (frozen now) (pre ++ post) w d
        /\ answer_run (frozen now) (pre ++ bad :: post) w d
           = answer_run (frozen now) (pre ++ post) w d).
Proof.
  intros Hparse.
  assert (Hav : forall now, available_at bad now = false).
  { intros now. unfold available_at, departure_on. now rewrite Hparse. }
  split; [|split].
  - intros clock. unfold flight_available, bind, datetime_now, ret. simpl.
    apply Hav.
  - intros clock rest w d acc. simpl. unfold bind.
    destruct (matches bad w d).
    + unfold flight_available, bind, datetime_now, ret.
      now rewrite Hav.
    + reflexivity.
  - intros now pre post w d.
    assert (Hc : candidates_run (frozen now) (pre ++ bad :: post) w d
                 = candidates_run (frozen now) (pre ++ post) w d).
    { rewrite !candidates_run_frozen, !filter_app. simpl.
      unfold eligible at 2. now rewrite Hav, andb_false_r. }
    split; [exact Hc|]. now rewrite !answer_run_choose, Hc.
Qed.

Lemma unparsable_departure_is_unavailable_witness :
  strptime_HM (departure_time F_bad) = None
  /\ answer_run (frozen morning) ([F1] ++ F_bad :: [F2]) 450 "Paris"
     = answer_run (frozen morning) ([F1] ++ [F2]) 450 "Paris".
Proof.
  split; [reflexivity|].
  apply (unparsable_departure_is_unavailable F_bad); reflexivity.
Defined.

(** * The candidate filter *)

(** C3.  With the clock standing at the instant [now], a rule becomes a
    candidate if and only if its destination equals the query's up to case,
    the weight is at most its capacity and [flight_available] holds for it at
    [now]; the candidates are the rule set with the other rules removed, in
    the order of the rule set, each paired with its surplus.  For a clock that
    moves the same holds rule by rule, availability being taken at the
    reading the clock shows when the loop reaches the rule: the candidates of
    the rules before it come first, then the rule if it passes the three
    tests, then the candidates of the rules after it. *)
Theorem candidates_iff_eligible
    (now : DateTime) (rules : list Rule) (w : Z) (d : string) :
  candidates_run (frozen now) rules w d
  = map (fun r => (r, max_weight r - w))
        (filter (fun r => (lower (destination r) =? lower d)%string
                          && (w <=? max_weight r)
                          && fst (flight_available r (frozen now)))
                rules)
  /\ (forall r s,
        In (r, s) (candidates_run (frozen now) rules w d)
        <-> In r rules
            /\ lower (destination r) = lower d
            /\ w <= max_weight r
            /\ fst (flight_available r (frozen now)) = true
            /\ s = max_weight r - w)
  /\ (forall clock pre r post,
        rules = (pre ++ r :: post)%list ->
        let clock1 := snd (scan_rules pre w d [] clock) in
        let passes := (lower (destination r) =? lower d)%string
                      && (w <=? max_weight r) in
        let test := (if passes then flight_available r else ret false) clock1 in
        candidates_run clock rules w d
        = (candidates_run clock pre w d
           ++ (if fst test then [(r, max_weight r - w)] else [])
           ++ candidates_run (snd test) post w d)%list).
Proof.
  assert (Heq : candidates_run (frozen now) rules w d
    = map (fun r => (r, max_weight r - w))
        (filter (fun r => (lower (destination r) =? lower d)%string
                          && (w <=? max_weight r)
                          && fst (flight_available r (frozen now)))
                rules)).
  { rewrite candidates_run_frozen. reflexivity. }
  split; [exact Heq|]. split.
  - intros r s. rewrite Heq, in_map_iff. split.
    + intros (r' & Hpair & Hin). injection Hpair as <- <-.
      apply filter_In in Hin. destruct Hin as (Hin & Hok).
      rewrite !andb_true_iff, String.eqb_eq, Z.leb_le in Hok. tauto.
    + intros (Hin & Hd & Hw & Hav & ->). exists r. split; [reflexivity|].
      apply filter_In. split; [exact Hin|].
      rewrite !andb_true_iff, String.eqb_eq, Z.leb_le. tauto.
  - intros clock pre r post ->. apply candidates_run_split.
Qed.

(** C7.  Every candidate the loop produces, whatever the weight and the
    clock, carries the surplus [max_weight - cargo_weight], and that surplus
    is not negative; the rule [find_flight] returns is such a candidate and
    its explanation is written with that surplus.  This holds in particular
    for the valid queries, those of non-negative weight. *)
Theorem surplus_is_capacity_minus_weight
    (clock : Clock) (rules : list Rule) (w : Z) (d : string) :
  (forall r s,
     In (r, s) (candidates_run clock rules w d) ->
     s = max_weight r - w /\ 0 <= s)
  /\ (forall best text,
        answer_run clock rules w d = (Some best, text) ->
        In (best, max_weight best - w) (candidates_run clock rules w d)
        /\ text = explanation best (max_weight best - w)
        /\ 0 <= max_weight best - w).
Proof.
  assert (Hc : forall r s,
     In (r, s) (candidates_run clock rules w d) ->
     s = max_weight r - w /\ 0 <= s).
  { intros r s Hin. apply candidates_run_sound in Hin.
    destruct Hin as (_ & Hm & ->). apply matches_iff in Hm. lia. }
  split; [exact Hc|].
  intros best text. rewrite answer_run_choose.
  destruct (candidates_run clock rules w d) as [|c0 l] eqn:E.
  - discriminate.
  - rewrite choose_some.
    destruct (sort_candidates_hd c0 l) as (Hin & _).
    destruct (hd c0 (sort_candidates (c0 :: l))) as [b s].
    cbn [fst snd]. intros H. injection H as <- <-.
    destruct (Hc _ _ Hin) as (-> & Hs).
    repeat split; [exact Hin | exact Hs].
Qed.

(** * The decision *)

(** C6.  [find_flight] returns no rule, with the no-flight message, if and
    only if no rule survives the filter; otherwise it returns the first
    candidate of the ranked list together with its explanation.  A weight
    above every rule's capacity leaves no candidate, hence no match. *)
Theorem no_match_iff_no_candidate
    (clock : Clock) (rules : list Rule) (w : Z) (d : string) :
  (answer_run clock rules w d = (None, no_flight_message)
   <-> candidates_run clock rules w d = [])
  /\ (fst (answer_run clock rules w d) = None
      <-> candidates_run clock rules w d = [])
  /\ (candidates_run clock rules w d <> [] ->
      exists best surplus rest,
        sort_candidates (candidates_run clock rules w d)
        = (best, surplus) :: rest
        /\ answer_run clock rules w d
           = (Some best, explanation best surplus))
  /\ ((forall r, In r rules -> max_weight r < w) ->
      answer_run clock rules w d = (None, no_flight_message)).
Proof.
  rewrite answer_run_choose.
  assert (Hnone : fst (choose (candidates_run clock rules w d)) = None
                  <-> candidates_run clock rules w d = [])
    by apply choose_none.
  assert (Hmsg : candidates_run clock rules w d = [] ->
                 choose (candidates_run clock rules w d)
                 = (None, no_flight_message))
    by (intros ->; reflexivity).
  split; [|split; [|split]].
  - split; [|exact Hmsg]. intros H. apply Hnone. now rewrite H.
  - exact Hnone.
  - intros Hne.
    destruct (candidates_run clock rules w d) as [|c0 l] eqn:E;
      [now elim Hne|].
    rewrite choose_some.
    pose proof (sort_candidates_perm (c0 :: l)) as HP.
    destruct (sort_candidates (c0 :: l)) as [|[b s] rest] eqn:Es.
    + apply Permutation_nil in HP. discriminate.
    + exists b, s, rest. split; reflexivity.
  - intros Hcap. apply Hmsg.
    destruct (candidates_run clock rules w d) as [|[r s] l] eqn:E;
      [reflexivity|].
    assert (Hin : In (r, s) (candidates_run clock rules w d))
      by (rewrite E; now left).
    apply candidates_run_sound in Hin. destruct Hin as (Hr & Hm & _).
    apply matches_iff in Hm. specialize (Hcap _ Hr). lia.
Qed.

(** * Determinism and the clock *)

(** C9, as stated, fails: the instant is not an input of [find_flight].  Two
    runs on the same rules and query that start at the same instant can
    answer differently, because each availability test reads the clock
    again. *)
Lemma same_start_instant_different_answers :
  ~ (forall rules w d (c1 c2 : Clock),
       c1 0%nat = c2 0%nat ->
       answer_run c1 rules w d = answer_run c2 rules w d).
Proof.
  intros H.
  specialize (H [F1; F2] 450 "Paris" clock_still clock_ticking eq_refl).
  vm_compute in H. discriminate H.
Qed.

(** C9, amended.  The answer of [find_flight] is a function of the rule set,
    the query and the readings of the wall clock taken during the run: two
    runs whose clocks give the same readings return the same rule and the
    same text.  When every reading is the one instant [now], the answer is
    the choice among the rules eligible at [now]. *)
Theorem answer_determined_by_clock_readings
    (rules : list Rule) (w : Z) (d : string) (c1 c2 : Clock) :
  (forall n, c1 n = c2 n) ->
  answer_run c1 rules w d = answer_run c2 rules w d
  /\ forall now,
       answer_run (frozen now) rules w d
       = choose (map (with_surplus w) (filter (eligible now w d) rules)).
Proof.
  intros Hc. split.
  - rewrite !answer_run_choose. unfold candidates_run.
    now rewrite (scan_rules_ext rules w d [] c1 c2 Hc).
  - intros now. now rewrite answer_run_choose, candidates_run_frozen.
Qed.

Lemma answer_determined_by_clock_readings_witness :
  answer_run clock_ticking [F1; F2] 450 "Paris"
  = answer_run (fun n => if Nat.eqb n 0 then just_before else at_departure)
      [F1; F2] 450 "Paris".
Proof.
  apply (answer_determined_by_clock_readings [F1; F2] 450 "Paris"
           clock_ticking
           (fun n => if Nat.eqb n 0 then just_before else at_departure)).
  intros n. destruct n; reflexivity.
Defined.

(** * Weight monotonicity *)

(** C10.  With the clock standing at [now], raising the weight can only
    remove candidates: a rule that is a candidate at the larger weight is one
    at the smaller weight, and a query without a match stays without a match
    at every larger weight. *)
Theorem candidates_antitone_in_weight
    (now : DateTime) (rules : list Rule) (d : string) (w1 w2 : Z) :
  w1 <= w2 ->
  (forall r,
     In r (map fst (candidates_run (frozen now) rules w2 d)) ->
     In r (map fst (candidates_run (frozen now) rules w1 d)))
  /\ (answer_run (frozen now) rules w1 d = (None, no_flight_message) ->
      answer_run (frozen now) rules w2 d = (None, no_flight_message)).
Proof.
  intros Hw.
  assert (Hsub : forall r,
     In r (map fst (candidates_run (frozen now) rules w2 d)) ->
     In r (map fst (candidates_run (frozen now) rules w1 d))).
  { intros r. rewrite !candidates_run_frozen, !map_map. cbn [with_surplus fst].
    rewrite !map_id. rewrite !filter_In. unfold eligible.
    rewrite !andb_true_iff, !matches_iff. intuition lia. }
  split; [exact Hsub|].
  rewrite !answer_run_choose. intros Hnone.
  assert (H1 : candidates_run (frozen now) rules w1 d = [])
    by (apply choose_none; now rewrite Hnone).
  destruct (candidates_run (frozen now) rules w2 d) as [|c l] eqn:E;
    [reflexivity|].
  specialize (Hsub (fst c) (or_introl eq_refl)).
  rewrite H1 in Hsub. destruct Hsub.
Qed.

Lemma candidates_antitone_in_weight_witness :
  450 <= 490
  /\ (answer_run (frozen morning) [F1; F2] 450 "Rome"
      = (None, no_flight_message) ->
      answer_run (frozen morning) [F1; F2] 490 "Rome"
      = (None, no_flight_message)).
Proof.
  assert (Hw : 450 <= 490) by lia.
  split; [exact Hw|].
  apply (candidates_antitone_in_weight morning [F1; F2] "Rome" 450 490 Hw).
Defined.

(** The clock has to stand still for this: a lighter cargo makes the loop
    consult the clock for more rules, so a rule further down is tested
    later.  Here [F1] is a candidate at 200 kg and not at 50 kg. *)
Example antitone_needs_standing_clock :
  candidates_run clock_ticking [F3; F1] 200 "Paris" = [(F1, 300)]
  /\ candidates_run clock_ticking [F3; F1] 50 "Paris" = [(F3, 50)].
Proof. split; reflexivity. Qed.

(** * Query validation *)

(** C2, as stated, fails: a weight of -5 is not rejected.  [find_flight]
    selects a flight for it, with a surplus above the capacity; with a
    destination no rule serves (the empty one included) it gives the ordinary
    no-flight answer; and the callback shows no error dialog. *)
Lemma negative_weight_is_answered :
  answer_run (frozen morning) [F1; F2] (-5) "Paris"
  = (Some F2, "Flight F2 selected: surplus capacity 485 kg, carbon footprint 5")
  /\ answer_run (frozen morning) [F1; F2] (-5) ""
     = (None, no_flight_message)
  /\ snd (fst (on_find_flight float_of_sample (gui_sample "-5" "Paris")
                 (frozen morning)))
     = None.
Proof. repeat split; vm_compute; reflexivity. Qed.

(** C2, amended.  The engine validates nothing.  For every weight that the
    weight text converts to, negative ones included, and every destination,
    the empty one included, the callback shows no error dialog and displays
    the answer of [find_flight]: the no-flight message exactly when no rule
    survives the filter, the selected rule and its explanation otherwise.  A
    negative weight passes the capacity test of every rule whose capacity is
    not negative.  The error dialog is shown only when the weight text is not
    a number. *)
Theorem query_is_not_validated
    (float_of : string -> option Z) (self : Gui) (w : Z) (clock : Clock) :
  float_of (weight_var self) = Some w ->
  let answer := answer_run clock (rules self) w (destination_var self) in
  let shown := fst (on_find_flight float_of self clock) in
  snd shown = None
  /\ (fst answer = None
      <-> candidates_run clock (rules self) w (destination_var self) = [])
  /\ (fst answer = None ->
      answer = (None, no_flight_message)
      /\ result_label (fst shown) = no_flight_message
      /\ status_var (fst shown) = "No match.")
  /\ (forall best text,
        answer = (Some best, text) ->
        recommended_flight (fst shown) = Some best
        /\ explanation_label (fst shown) = text
        /\ status_var (fst shown) = "Flight recommended.")
  /\ (w < 0 ->
      forall r, 0 <= max_weight r ->
        matches r w (destination_var self)
        = (lower (destination r) =? lower (destination_var self))%string)
  /\ (forall self' clock',
        float_of (weight_var self') = None ->
        fst (on_find_flight float_of self' clock')
        = (self', Some ("Input Error", "Enter a valid number for weight."))).
Proof.
  intros Hw answer shown.
  assert (Hans : answer
                 = choose (candidates_run clock (rules self) w
                             (destination_var self)))
    by apply answer_run_choose.
  assert (Hshown : shown
    = match answer with
      | (Some best, text) =>
          (mkGui (rules self) (weight_var self) (destination_var self)
                 (Some best) ("Recommended Flight: " ++ flight best) text
                 "Flight recommended.", None)
      | (None, text) =>
          (mkGui (rules self) (weight_var self) (destination_var self)
                 (recommended_flight self) text "" "No match.", None)
      end).
  { unfold shown, answer, answer_run, on_find_flight. rewrite Hw.
    unfold bind.
    destruct (find_flight (rules self) w (destination_var self) clock)
      as [[[best|] text] clock']; reflexivity. }
  split; [|split; [|split; [|split; [|split]]]].
  - rewrite Hshown. now destruct answer as [[best|] text].
  - rewrite Hans. apply choose_none.
  - intros Hnone.
    assert (Hmsg : answer = (None, no_flight_message)).
    { rewrite Hans in Hnone |- *. apply choose_none in Hnone.
      now rewrite Hnone. }
    rewrite Hshown, Hmsg. repeat split.
  - intros best text Hsel. rewrite Hshown, Hsel. repeat split.
  - intros Hneg r Hcap. unfold matches.
    assert (Hle : (w <=? max_weight r) = true) by (apply Z.leb_le; lia).
    now rewrite Hle, andb_true_r.
  - intros self' clock' Hnan. unfold on_find_flight. now rewrite Hnan.
Qed.

Lemma query_is_not_validated_witness :
  float_of_sample (weight_var (gui_sample "-5" "Paris")) = Some (-5)
  /\ snd (fst (on_find_flight float_of_sample (gui_sample "-5" "Paris")
                 (frozen morning)))
     = None.
Proof.
  assert (Hw : float_of_sample (weight_var (gui_sample "-5" "Paris"))
               = Some (-5)) by reflexivity.
  split; [exact Hw|].
  apply (query_is_not_validated float_of_sample (gui_sample "-5" "Paris")
           (-5) (frozen morning) Hw).
Defined.

(** * Further properties of the engine *)

(** ** Letter case of the destination *)

Lemma lower_ascii_idem c : lower_ascii (lower_ascii c) = lower_ascii c.
Proof. destruct c as [[] [] [] [] [] [] [] []]; reflexivity. Qed.

Lemma lower_idem s : lower (lower s) = lower s.
Proof.
  induction s as [|c s IH]; simpl; [reflexivity|].
  now rewrite lower_ascii_idem, IH.
Qed.

Lemma scan_rules_same_guard rules w d d' :
  (forall r, matches r w d = matches r w d') ->
  forall acc clock,
    scan_rules rules w d acc clock = scan_rules rules w d' acc clock.
Proof.
  intros Hm. induction rules as [|r rest IH]; intros acc clock; simpl.
  - reflexivity.
  - unfold bind. rewrite Hm.
    destruct ((if matches r w d' then flight_available r else ret false) clock)
      as [ok clock'].
    destruct ok; apply IH.
Qed.

(** X1.  The answer does not depend on the letter case of the destination
    asked for: two destinations with the same lower-case form get the same
    candidates and the same answer from every rule set, at every clock, and
    a destination gets the answer of its own lower-case form. *)
Theorem destination_case_is_ignored
    (clock : Clock) (rules : list Rule) (w : Z) (d : string) :
  (forall d', lower d = lower d' ->
     candidates_run clock rules w d = candidates_run clock rules w d'
     /\ answer_run clock rules w d = answer_run clock rules w d')
  /\ answer_run clock rules w (lower d) = answer_run clock rules w d.
Proof.
  assert (H : forall d', lower d = lower d' ->
     candidates_run clock rules w d = candidates_run clock rules w d').
  { intros d' Hd. unfold candidates_run.
    rewrite (scan_rules_same_guard rules w d d'); [reflexivity|].
    intros r. unfold matches. now rewrite Hd. }
  split.
  - intros d' Hd. split; [now apply H|].
    rewrite !answer_run_choose. now rewrite (H d' Hd).
  - rewrite !answer_run_choose.
    rewrite <- (H (lower d)); [reflexivity|]. symmetry. apply lower_idem.
Qed.

(** ** Availability and the time of day *)

Lemma lex_ltb_same_head x a b : lex_ltb (x :: a) (x :: b) = lex_ltb a b.
Proof. simpl. now rewrite Z.ltb_irrefl, Z.eqb_refl. Qed.

(** Availability is a comparison of times of day. *)
Lemma available_at_time_of_day r now t :
  strptime_HM (departure_time r) = Some t ->
  available_at r now
  = lex_ltb [hour now; minute now; second now; microsecond now]
            [hour t; minute t; 0; 0].
Proof.
  intros Hp. unfold available_at, departure_on. rewrite Hp.
  apply strptime_HM_range in Hp. destruct Hp as (_ & _ & Hs & Hus).
  unfold dt_ltb, dt_fields, replace_date. cbn [year month day hour minute
    second microsecond].
  rewrite !lex_ltb_same_head. now rewrite Hs, Hus.
Qed.

Lemma available_at_us r now t :
  strptime_HM (departure_time r) = Some t ->
  valid_time now ->
  available_at r now = true
  <-> us_of_day now < (hour t * 60 + minute t) * 60000000.
Proof.
  intros Hp Hv. rewrite (available_at_time_of_day r now t Hp).
  apply strptime_HM_range in Hp. destruct Hp as (Hh & Hm & _ & _).
  unfold valid_time, us_of_day in *. simpl.
  rewrite !orb_true_iff, !andb_true_iff, !orb_true_iff, !andb_true_iff,
    !orb_true_iff, !andb_true_iff, !Z.ltb_lt, !Z.eqb_eq.
  lia.
Qed.

(** X2.  [flight_available] looks at the time of day only: two clock
    readings with the same hour, minute, second and microsecond give the same
    answer for every rule, whatever their dates. *)
Theorem availability_ignores_the_date
    (rule : Rule) (clock clock' : Clock) :
  hour (clock 0%nat) = hour (clock' 0%nat) ->
  minute (clock 0%nat) = minute (clock' 0%nat) ->
  second (clock 0%nat) = second (clock' 0%nat) ->
  microsecond (clock 0%nat) = microsecond (clock' 0%nat) ->
  fst (flight_available rule clock) = fst (flight_available rule clock').
Proof.
  intros Hh Hm Hs Hus.
  unfold flight_available, bind, datetime_now, ret. cbn [fst].
  destruct (strptime_HM (departure_time rule)) as [t|] eqn:Hp.
  - rewrite !(available_at_time_of_day rule _ t Hp).
    now rewrite Hh, Hm, Hs, Hus.
  - unfold available_at, departure_on. now rewrite Hp.
Qed.

Lemma availability_ignores_the_date_witness :
  fst (flight_available F1 (frozen morning))
  = fst (flight_available F1 (frozen (mkDateTime 1999 12 31 8 30 0 0))).
Proof.
  apply (availability_ignores_the_date F1 (frozen morning)
           (frozen (mkDateTime 1999 12 31 8 30 0 0))); reflexivity.
Defined.

(** X3.  Availability only shrinks as the day goes on: a rule available at
    a time of day is available at every earlier time of day, so with the
    clock standing still a query without a match at one time has none at any
    later time of day. *)
Theorem availability_shrinks_during_the_day
    (now1 now2 : DateTime) (rules : list Rule) (w : Z) (d : string) :
  valid_time now1 -> valid_time now2 ->
  us_of_day now1 <= us_of_day now2 ->
  (forall r, available_at r now2 = true -> available_at r now1 = true)
  /\ (forall c, In c (candidates_run (frozen now2) rules w d) ->
                In c (candidates_run (frozen now1) rules w d))
  /\ (answer_run (frozen now1) rules w d = (None, no_flight_message) ->
      answer_run (frozen now2) rules w d = (None, no_flight_message)).
Proof.
  intros V1 V2 Hle.
  assert (Hav : forall r, available_at r now2 = true ->
                          available_at r now1 = true).
  { intros r H2.
    destruct (strptime_HM (departure_time r)) as [t|] eqn:Hp.
    - apply (available_at_us r now1 t Hp V1).
      apply (available_at_us r now2 t Hp V2) in H2. lia.
    - unfold available_at, departure_on in H2. rewrite Hp in H2.
      discriminate H2. }
  assert (Hsub : forall c, In c (candidates_run (frozen now2) rules w d) ->
                           In c (candidates_run (frozen now1) rules w d)).
  { intros c. rewrite !candidates_run_frozen, !in_map_iff.
    intros (r & Hc & Hin). exists r. split; [exact Hc|].
    apply filter_In in Hin. apply filter_In. destruct Hin as (Hin & He).
    split; [exact Hin|]. unfold eligible in *.
    apply andb_true_iff in He. destruct He as (Hm & Ha).
    apply andb_true_iff. split; [exact Hm | now apply Hav]. }
  split; [exact Hav|]. split; [exact Hsub|].
  rewrite !answer_run_choose. intros Hnone.
  assert (H1 : candidates_run (frozen now1) rules w d = [])
    by (apply choose_none; now rewrite Hnone).
  destruct (candidates_run (frozen now2) rules w d) as [|c l] eqn:E;
    [reflexivity|].
  specialize (Hsub c (or_introl eq_refl)). rewrite H1 in Hsub. destruct Hsub.
Qed.

Lemma availability_shrinks_during_the_day_witness :
  valid_time morning /\ valid_time just_before
  /\ us_of_day morning <= us_of_day just_before
  /\ (forall c,
        In c (candidates_run (frozen just_before) [F1; F2] 450 "Paris") ->
        In c (candidates_run (frozen morning) [F1; F2] 450 "Paris")).
Proof.
  assert (V1 : valid_time morning) by (unfold valid_time; simpl; lia).
  assert (V2 : valid_time just_before) by (unfold valid_time; simpl; lia).
  assert (Hle : us_of_day morning <= us_of_day just_before)
    by (vm_compute; discriminate).
  repeat split; try exact Hle; try apply V1; try apply V2.
  apply (availability_shrinks_during_the_day morning just_before
           [F1; F2] 450 "Paris" V1 V2 Hle).
Defined.

Lemma scan_rules_never_available rules w d : forall acc clock,
  (forall n r, available_at r (clock n) = false) ->
  fst (scan_rules rules w d acc clock) = acc.
Proof.
  induction rules as [|r rest IH]; intros acc clock Hnever; simpl.
  - reflexivity.
  - unfold bind. destruct (matches r w d).
    + unfold flight_available, bind, datetime_now, ret.
      rewrite Hnever. apply IH. intros n r'. apply Hnever.
    + unfold ret. now apply IH.
Qed.

(** X4.  No departure time reads later than 23:59, so during the last
    minute of the day no rule is available and [find_flight] finds no flight,
    whatever the rule set and the query. *)
Theorem no_flight_in_the_last_minute
    (clock : Clock) (rules : list Rule) (w : Z) (d : string) :
  (forall n, valid_time (clock n)
             /\ hour (clock n) = 23 /\ minute (clock n) = 59) ->
  (forall r n, available_at r (clock n) = false)
  /\ answer_run clock rules w d = (None, no_flight_message).
Proof.
  intros Hlate.
  assert (Hnever : forall n r, available_at r (clock n) = false).
  { intros n r. destruct (Hlate n) as (Hv & Hh & Hm).
    destruct (available_at r (clock n)) eqn:Ha; [|reflexivity].
    destruct (strptime_HM (departure_time r)) as [t|] eqn:Hp.
    - apply (available_at_us r (clock n) t Hp Hv) in Ha.
      apply strptime_HM_range in Hp.
      unfold valid_time, us_of_day in *. lia.
    - unfold available_at, departure_on in Ha. rewrite Hp in Ha.
      discriminate Ha. }
  split; [intros r n; apply Hnever|].
  rewrite answer_run_choose. unfold candidates_run.
  now rewrite (scan_rules_never_available rules w d [] clock Hnever).
Qed.

Lemma no_flight_in_the_last_minute_witness :
  answer_run (frozen at_departure) [F1; F2; G1] 1 "Paris"
  = (None, no_flight_message).
Proof.
  apply (no_flight_in_the_last_minute (frozen at_departure)).
  intros n. unfold valid_time, frozen. simpl. lia.
Defined.

(** Every candidate was available at one of the readings of the clock. *)
Lemma scan_rules_available rules w d : forall acc clock c,
  In c (fst (scan_rules rules w d acc clock)) ->
  In c acc \/ exists n, available_at (fst c) (clock n) = true.
Proof.
  induction rules as [|r rest IH]; intros acc clock c; simpl.
  - now left.
  - unfold bind. destruct (matches r w d).
    + unfold flight_available, bind, datetime_now, ret.
      destruct (available_at r (clock 0%nat)) eqn:Ha; intros Hin;
        apply IH in Hin.
      * destruct Hin as [Hin | (n & Hn)].
        -- apply in_app_or in Hin. destruct Hin as [Hin | [<- | []]].
           ++ now left.
           ++ right. now exists 0%nat.
        -- right. now exists (S n).
      * destruct Hin as [Hin | (n & Hn)]; [now left|].
        right. now exists (S n).
    + unfold ret. intros Hin. apply IH in Hin.
      destruct Hin as [Hin | (n & Hn)]; [now left | right; now exists n].
Qed.

(** X5.  A flight that [find_flight] returns is one of the rules it was
    given; it serves the destination asked for (up to case), its capacity
    is at least the cargo weight, its departure time is a time of day that
    parses, and it was available at one of the clock readings of the run. *)
Theorem selected_flight_is_an_eligible_rule
    (clock : Clock) (rules : list Rule) (w : Z) (d : string)
    (best : Rule) (text : string) :
  answer_run clock rules w d = (Some best, text) ->
  In best rules
  /\ lower (destination best) = lower d
  /\ w <= max_weight best
  /\ strptime_HM (departure_time best) <> None
  /\ exists n, available_at best (clock n) = true.
Proof.
  rewrite answer_run_choose.
  destruct (candidates_run clock rules w d) as [|c0 l] eqn:E; [discriminate|].
  rewrite choose_some.
  destruct (sort_candidates_hd c0 l) as (Hin & _).
  destruct (hd c0 (sort_candidates (c0 :: l))) as [b s].
  cbn [fst snd]. intros H. injection H as <- _.
  rewrite <- E in Hin.
  destruct (candidates_run_sound _ _ _ _ _ _ Hin) as (Hr & Hm & _).
  apply matches_iff in Hm. destruct Hm as (Hd & Hw).
  unfold candidates_run in Hin. apply scan_rules_available in Hin.
  destruct Hin as [[] | (n & Hn)]. cbn [fst] in Hn.
  repeat split; try assumption.
  - intros Hp. unfold available_at, departure_on in Hn. rewrite Hp in Hn.
    discriminate Hn.
  - now exists n.
Qed.

Lemma selected_flight_is_an_eligible_rule_witness :
  In F1 [F1; F2] /\ 490 <= max_weight F1.
Proof.
  assert (H : answer_run (frozen morning) [F1; F2] 490 "PARIS"
              = (Some F1,
                 "Flight F1 selected: surplus capacity 10 kg, carbon footprint 10"))
    by reflexivity.
  destruct (selected_flight_is_an_eligible_rule _ _ _ _ _ _ H)
    as (Hin & _ & Hw & _).
  split; [exact Hin | exact Hw].
Defined.

(** ** Writing and reading a time of day *)

Lemma strptime_strftime_nat (a b : nat) :
  (a < 24)%nat -> (b < 60)%nat ->
  strptime_HM (two_digits (Z.of_nat a) ++ ":" ++ two_digits (Z.of_nat b))
  = Some (mkDateTime 1900 1 1 (Z.of_nat a) (Z.of_nat b) 0 0).
Proof.
  intros Ha Hb.
  do 24 (destruct a as [|a];
         [do 60 (destruct b as [|b]; [vm_compute; reflexivity|]); lia|]).
  lia.
Qed.

(** X6.  The text that [action_time] prints for a clock reading, read back
    with [strptime] and the format of [flight_available], gives the hour and
    minute of the reading.  A rule whose departure time is that text has
    therefore departed at that reading: it is not available. *)
Theorem action_time_reads_back (clock : Clock) (rule : Rule) :
  valid_time (clock 0%nat) ->
  strptime_HM (fst (action_time clock))
  = Some (mkDateTime 1900 1 1 (hour (clock 0%nat)) (minute (clock 0%nat)) 0 0)
  /\ (departure_time rule = fst (action_time clock) ->
      fst (flight_available rule clock) = false).
Proof.
  intros Hv.
  assert (Hp : strptime_HM (strftime_HM (clock 0%nat))
    = Some (mkDateTime 1900 1 1 (hour (clock 0%nat)) (minute (clock 0%nat))
              0 0)).
  { unfold strftime_HM. destruct Hv as (Hh & Hm & _).
    rewrite <- (Z2Nat.id (hour (clock 0%nat))) by lia.
    rewrite <- (Z2Nat.id (minute (clock 0%nat))) by lia.
    apply strptime_strftime_nat; lia. }
  split; [exact Hp|].
  unfold action_time, flight_available, bind, datetime_now, ret. cbn [fst].
  intros Hdep. rewrite <- Hdep in Hp.
  destruct (available_at rule (clock 0%nat)) eqn:Ha; [|reflexivity].
  apply (available_at_us rule _ _ Hp Hv) in Ha.
  unfold valid_time, us_of_day in *. cbn [hour minute] in Ha. lia.
Qed.

Lemma action_time_reads_back_witness :
  valid_time (frozen morning 0%nat)
  /\ strptime_HM (fst (action_time (frozen morning)))
     = Some (mkDateTime 1900 1 1 8 30 0 0).
Proof.
  assert (Hv : valid_time (frozen morning 0%nat))
    by (unfold valid_time; simpl; lia).
  split; [exact Hv|].
  apply (action_time_reads_back (frozen morning) F1 Hv).
Defined.

(** ** A filter in two steps *)

Lemma filter_twice {A} (f g h : A -> bool) (l : list A) :
  (forall x, In x l -> f x = h x && g x) ->
  filter f l = filter g (filter h l).
Proof.
  induction l as [|x l IH]; intros H; simpl; [reflexivity|].
  rewrite (H x (or_introl eq_refl)).
  rewrite IH by (intros y Hy; apply H; now right).
  destruct (h x); simpl; [|reflexivity].
  now destruct (g x).
Qed.

(** * The callbacks together *)

Lemma on_find_flight_recommended float_of self clock :
  recommended_flight (fst (fst (on_find_flight float_of self clock)))
  = match float_of (weight_var self) with
    | None => recommended_flight self
    | Some w =>
        match fst (answer_run clock (rules self) w (destination_var self)) with
        | Some best => Some best
        | None => recommended_flight self
        end
    end.
Proof.
  unfold on_find_flight, answer_run.
  destruct (float_of (weight_var self)) as [w|]; [|reflexivity].
  unfold bind.
  destruct (find_flight (rules self) w (destination_var self) clock)
    as [[[best|] text] clock']; reflexivity.
Qed.

(** X9.  Booking uses the flight of the last successful search.  Neither
    [on_reset] nor a search that ends with an input error or without a match
    clears it: after any of them [on_book_flight] shows what it showed
    before.  After a search that selects a flight it shows the boarding pass
    of that flight. *)
Theorem booking_follows_last_successful_search
    (float_of : string -> option Z) (self : Gui) (clock : Clock) :
  let searched := fst (fst (on_find_flight float_of self clock)) in
  snd (on_book_flight (on_reset self)) = snd (on_book_flight self)
  /\ snd (on_book_flight (on_reset searched)) = snd (on_book_flight searched)
  /\ (float_of (weight_var self) = None ->
      snd (on_book_flight searched) = snd (on_book_flight self))
  /\ (forall w,
        float_of (weight_var self) = Some w ->
        fst (answer_run clock (rules self) w (destination_var self)) = None ->
        snd (on_book_flight searched) = snd (on_book_flight self))
  /\ (forall w best text,
        float_of (weight_var self) = Some w ->
        answer_run clock (rules self) w (destination_var self)
        = (Some best, text) ->
        snd (on_book_flight searched) = BoardingPass (boarding_pass best)).
Proof.
  intros searched.
  assert (Hbook : forall a b, recommended_flight a = recommended_flight b ->
                    snd (on_book_flight a) = snd (on_book_flight b)).
  { intros a b H. unfold on_book_flight. rewrite H.
    now destruct (recommended_flight b). }
  pose proof (on_find_flight_recommended float_of self clock) as Hrec.
  fold searched in Hrec.
  split; [now apply Hbook|]. split; [now apply Hbook|].
  split; [|split].
  - intros Hnan. apply Hbook. now rewrite Hrec, Hnan.
  - intros w Hw Hnone. apply Hbook. now rewrite Hrec, Hw, Hnone.
  - intros w best text Hw Hsel. unfold on_book_flight.
    rewrite Hrec, Hw, Hsel. reflexivity.
Qed.

(** X10.  [on_show_all_flights] lists the candidates of [find_flight] for
    the same readings of the clock, one row each, in the order of the rule
    set and not in ranking order.  It shows its no-flights dialog exactly
    when [find_flight] finds no flight, and the flight [find_flight]
    recommends is always one of the rows. *)
Theorem show_all_lists_the_candidates
    (float_of : string -> option Z) (self : Gui) (w : Z) (clock : Clock) :
  float_of (weight_var self) = Some w ->
  let cands := candidates_run clock (rules self) w (destination_var self) in
  let answer := answer_run clock (rules self) w (destination_var self) in
  let shown := fst (on_show_all_flights float_of self clock) in
  (fst answer = None
   <-> shown = (self, ShowInfo "No Flights"
                        "No available flights match the criteria."))
  /\ (fst answer <> None ->
      shown = (set_status self "Displayed all flights.",
               FlightsWindow (map row_of cands)))
  /\ (forall best text,
        answer = (Some best, text) ->
        exists rows,
          snd shown = FlightsWindow rows
          /\ In (mkRow (flight best) (max_weight best) (max_weight best - w)
                       (airport_code best) (departure_time best)
                       (carbon_footprint best)) rows)
  /\ (forall now,
        clock = frozen now ->
        map row_flight (map row_of cands)
        = map flight (filter (eligible now w (destination_var self))
                             (rules self))).
Proof.
  intros Hw cands answer shown.
  assert (Hshown : shown
    = match cands with
      | [] => (self, ShowInfo "No Flights"
                       "No available flights match the criteria.")
      | _ :: _ => (set_status self "Displayed all flights.",
                   FlightsWindow (map row_of cands))
      end).
  { unfold shown, cands, candidates_run, on_show_all_flights.
    rewrite Hw. unfold bind.
    destruct (scan_rules (rules self) w (destination_var self) [] clock)
      as [[|c l] clock']; reflexivity. }
  assert (Hans : answer = choose cands) by apply answer_run_choose.
  assert (Hnone : fst answer = None <-> cands = [])
    by (rewrite Hans; apply choose_none).
  split; [|split; [|split]].
  - rewrite Hnone, Hshown. destruct cands; split;
      try reflexivity; discriminate.
  - intros Hsome. rewrite Hshown. destruct cands as [|c l] eqn:E;
      [|reflexivity].
    elim Hsome. now apply Hnone.
  - intros best text Hsel. rewrite Hans in Hsel.
    destruct cands as [|c0 l] eqn:E; [discriminate|].
    rewrite Hshown. eexists. split; [reflexivity|].
    rewrite choose_some in Hsel.
    destruct (sort_candidates_hd c0 l) as (Hin & _).
    destruct (hd c0 (sort_candidates (c0 :: l))) as [b s].
    cbn [fst snd] in Hsel. injection Hsel as <- _.
    assert (Hs : s = max_weight b - w).
    { assert (Hin' : In (b, s) cands) by (rewrite E; exact Hin).
      now apply candidates_run_sound in Hin'. }
    subst s. apply (in_map row_of) in Hin. exact Hin.
  - intros now ->. unfold cands. rewrite candidates_run_frozen, !map_map.
    reflexivity.
Qed.

Lemma show_all_lists_the_candidates_witness :
  float_of_sample (weight_var (gui_sample "450" "Paris")) = Some 450
  /\ fst (on_show_all_flights float_of_sample (gui_sample "450" "Paris")
            (frozen morning))
     = (set_status (gui_sample "450" "Paris") "Displayed all flights.",
        FlightsWindow [mkRow "F1" 500 50 "CDG" "23:59" 10;
                       mkRow "F2" 480 30 "ORY" "23:59" 5]).
Proof.
  assert (Hw : float_of_sample (weight_var (gui_sample "450" "Paris"))
               = Some 450) by reflexivity.
  split; [exact Hw|].
  destruct (show_all_lists_the_candidates float_of_sample
              (gui_sample "450" "Paris") 450 (frozen morning) Hw)
    as (_ & H & _).
  apply H. vm_compute. discriminate.
Defined.

(** The two lists of the chart are the names and the surpluses of the
    candidates of the [find_flight] loop. *)
Lemma chart_loop_scan rules w d : forall fs ss clock,
  chart_loop rules w d fs ss clock
  = ((fs ++ map (fun c => flight (fst c)) (fst (scan_rules rules w d [] clock)),
      ss ++ map snd (fst (scan_rules rules w d [] clock)))%list,
     snd (scan_rules rules w d [] clock)).
Proof.
  induction rules as [|r rest IH]; intros fs ss clock; simpl.
  - unfold ret. simpl. now rewrite !app_nil_r.
  - unfold bind.
    destruct ((if matches r w d then flight_available r else ret false) clock)
      as [ok clock'].
    destruct ok.
    + rewrite IH, (scan_rules_acc rest w d [_]). cbn [fst snd].
      rewrite !map_app, <- !app_assoc. reflexivity.
    + apply IH.
Qed.

Lemma chart_lists w (l : list Candidate) :
  (forall c, In c l -> snd c = max_weight (fst c) - w /\ 0 <= snd c) ->
  List.length (map (fun c => flight (fst c)) l) = List.length (map snd l)
  /\ Forall (fun h => 0 <= h) (map snd l)
  /\ combine (map (fun c => flight (fst c)) l) (map snd l)
     = map (fun c => (flight (fst c), max_weight (fst c) - w)) l.
Proof.
  intros Hsound. split; [now rewrite !List.length_map|]. split.
  - apply Forall_forall. intros h Hh. apply in_map_iff in Hh.
    destruct Hh as (c & <- & Hc). now apply Hsound.
  - induction l as [|c l IH]; [reflexivity|].
    cbn [map combine]. rewrite IH by (intros c' Hc'; apply Hsound; now right).
    destruct (Hsound c (or_introl eq_refl)) as (-> & _). reflexivity.
Qed.

(** X11.  [on_show_chart] draws one bar per candidate of [find_flight] for
    the same readings of the clock, in the order of the rule set: the labels
    are the flight names and the heights the surpluses.  The two lists have
    the same length, no bar is negative, and the no-data dialog appears
    exactly when there is no candidate. *)
Theorem chart_draws_the_candidates
    (float_of : string -> option Z) (self : Gui) (w : Z) (clock : Clock) :
  float_of (weight_var self) = Some w ->
  let cands := candidates_run clock (rules self) w (destination_var self) in
  let shown := fst (on_show_chart float_of self clock) in
  (cands = []
   <-> shown = (self, ShowInfo "No Data" "No available flights to chart."))
  /\ (cands <> [] ->
      shown = (set_status self "Chart displayed.",
               ChartWindow (map (fun c => flight (fst c)) cands)
                           (map snd cands)))
  /\ (forall names heights,
        snd shown = ChartWindow names heights ->
        List.length names = List.length heights
        /\ Forall (fun h => 0 <= h) heights
        /\ combine names heights
           = map (fun c => (flight (fst c), max_weight (fst c) - w)) cands).
Proof.
  intros Hw cands shown.
  assert (Hshown : shown
    = match cands with
      | [] => (self, ShowInfo "No Data" "No available flights to chart.")
      | _ :: _ => (set_status self "Chart displayed.",
                   ChartWindow (map (fun c => flight (fst c)) cands)
                               (map snd cands))
      end).
  { unfold shown, cands, candidates_run, on_show_chart.
    rewrite Hw. unfold bind. rewrite chart_loop_scan. cbn [fst snd app].
    destruct (fst (scan_rules (rules self) w (destination_var self) []
                     clock)) as [|c l]; reflexivity. }
  assert (Hsound : forall c, In c cands ->
                     snd c = max_weight (fst c) - w /\ 0 <= snd c).
  { intros [r s] Hin. apply candidates_run_sound in Hin.
    destruct Hin as (_ & Hm & ->). apply matches_iff in Hm.
    cbn [fst snd]. lia. }
  split; [|split].
  - rewrite Hshown. destruct cands; split; try reflexivity; discriminate.
  - intros Hne. rewrite Hshown. destruct cands; [now elim Hne | reflexivity].
  - intros names heights. rewrite Hshown.
    destruct cands as [|c0 l] eqn:E; [discriminate|].
    cbn [snd]. intros H. injection H as Hn Hh. subst names heights.
    apply (chart_lists w (c0 :: l)). exact Hsound.
Qed.

Lemma chart_draws_the_candidates_witness :
  float_of_sample (weight_var (gui_sample "450" "Paris")) = Some 450
  /\ snd (fst (on_show_chart float_of_sample (gui_sample "450" "Paris")
                 (frozen morning)))
     = ChartWindow ["F1"; "F2"] [50; 30].
Proof.
  assert (Hw : float_of_sample (weight_var (gui_sample "450" "Paris"))
               = Some 450) by reflexivity.
  split; [exact Hw|].
  destruct (chart_draws_the_candidates float_of_sample
              (gui_sample "450" "Paris") 450 (frozen morning) Hw)
    as (_ & H & _).
  rewrite H; [reflexivity|]. vm_compute. discriminate.
Defined.

(** * Adding a rule *)

(** X13.  The admin form checks the two numeric fields and nothing else.
    When one of them is not a number the rule set is left as it was.
    Otherwise the new rule goes to the end of the rule set, the rules
    already there keep their places, and at every clock the candidates of a
    query are the former ones followed at most by the new rule.  The
    departure time is stored unchecked: when it does not parse, the rule is
    kept in the rule set and no answer of [find_flight] changes. *)
Theorem admin_form_appends_unchecked_rule
    (float_of : string -> option Z) (self : Gui) (entries : Entries) :
  (float_of (entry_max_weight entries) = None
   \/ float_of (entry_carbon_footprint entries) = None ->
   add float_of self entries
   = (self, ShowError "Input Error" "Check numeric fields."))
  /\ forall mw cf,
       float_of (entry_max_weight entries) = Some mw ->
       float_of (entry_carbon_footprint entries) = Some cf ->
       let new := mkRule (entry_flight entries) (entry_destination entries)
                         mw (entry_airport_code entries)
                         (entry_departure_time entries) cf in
       let self' := fst (add float_of self entries) in
       rules self' = (rules self ++ [new])%list
       /\ snd (add float_of self entries)
          = ShowInfo "Success" ("Flight " ++ entry_flight entries ++ " added.")
       /\ recommended_flight self' = recommended_flight self
       /\ (forall clock w d,
             exists tail,
               candidates_run clock (rules self') w d
               = (candidates_run clock (rules self) w d ++ tail)%list
               /\ (tail = [] \/ tail = [(new, mw - w)]))
       /\ (strptime_HM (entry_departure_time entries) = None ->
           forall clock w d,
             answer_run clock (rules self') w d
             = answer_run clock (rules self) w d).
Proof.
  split.
  - unfold add. intros [H | H].
    + now rewrite H.
    + rewrite H. now destruct (float_of (entry_max_weight entries)).
  - intros mw cf Hmw Hcf new self'.
    assert (Hadd : add float_of self entries
      = (mkGui (rules self ++ [new]) (weight_var self) (destination_var self)
               (recommended_flight self) (result_label self)
               (explanation_label self) (status_var self),
         ShowInfo "Success" ("Flight " ++ flight new ++ " added."))).
    { unfold add. now rewrite Hmw, Hcf. }
    unfold self'. rewrite Hadd. cbn [fst snd rules recommended_flight].
    assert (Hsplit : forall clock w d,
      candidates_run clock (rules self ++ [new]) w d
      = (candidates_run clock (rules self) w d
         ++ (if fst ((if matches new w d then flight_available new
                      else ret false)
                       (snd (scan_rules (rules self) w d [] clock)))
             then [(new, mw - w)] else []))%list).
    { intros clock w d. rewrite candidates_run_split.
      unfold candidates_run at 2. simpl scan_rules. unfold ret at 2.
      cbn [fst]. now rewrite app_nil_r. }
    split; [reflexivity|]. split; [reflexivity|]. split; [reflexivity|].
    split.
    + intros clock w d. rewrite Hsplit.
      eexists. split; [reflexivity|].
      match goal with
      | |- (if ?b then _ else _) = [] \/ _ => destruct b
      end; [now right | now left].
    + intros Hbad clock w d. rewrite !answer_run_choose, Hsplit.
      assert (Hav : forall t, available_at new t = false).
      { intros t. unfold available_at, departure_on. cbn [departure_time new].
        now rewrite Hbad. }
      destruct (matches new w d).
      * unfold flight_available, bind, datetime_now, ret. cbn [fst].
        now rewrite Hav, app_nil_r.
      * unfold ret. cbn [fst]. now rewrite app_nil_r.
Qed.

(** * Rearranging a filtered list *)

Lemma filter_perm {A} (f : A -> bool) (l l' : list A) :
  Permutation l l' -> Permutation (filter f l) (filter f l').
Proof.
  induction 1 as [|x l l' _ IH|x y l|l l' l'' _ IH1 _ IH2]; simpl.
  - constructor.
  - destruct (f x); [now constructor | exact IH].
  - destruct (f x), (f y); try apply Permutation_refl. apply perm_swap.
  - now transitivity (filter f l').
Qed.


(** * The chat loop *)

Lemma prefix_trans a : forall b c,
  String.prefix a b = true -> String.prefix b c = true ->
  String.prefix a c = true.
Proof.
  induction a as [|x a IH]; intros b c Hab Hbc; [now destruct c|].
  destruct b as [|y b]; [discriminate|].
  destruct c as [|z c]; [discriminate|].
  simpl in *.
  destruct (ascii_dec x y) as [->|]; [|discriminate].
  destruct (ascii_dec y z) as [->|]; [|discriminate].
  now apply (IH b c).
Qed.

Lemma contains_prefix a b text :
  String.prefix a b = true -> contains b text = true ->
  contains a text = true.
Proof.
  intros Hab. induction text as [|c text IH]; cbn [contains];
    rewrite !orb_true_iff; intros [H | H].
  - left. now apply (prefix_trans a b).
  - discriminate.
  - left. now apply (prefix_trans a b).
  - right. now apply IH.
Qed.

Lemma contains_empty text : contains "" text = true.
Proof. destruct text; reflexivity. Qed.

(** X15.  The chat loop ends on a farewell word only when nothing before it
    in the cascade applies: the text must not name the channel (in any
    letter case), must not contain "time" and must not contain "thank".  The
    word "thanks" of the polite list adds nothing, since a text with
    "thanks" in it has "thank" in it.  A bot whose channel name is empty
    greets on every text and never ends. *)
Theorem chat_loop_ends_only_on_plain_farewell (channel text : string) :
  any_in ["thank"; "thanks"] text = contains "thank" text
  /\ (keeps_running channel text = false
      <-> wake_up channel text = false
          /\ contains "time" text = false
          /\ contains "thank" text = false
          /\ (contains "exit" text = true
              \/ contains "close" text = true
              \/ contains "bye" text = true))
  /\ (channel = "" ->
      branch_of channel text = Greeting /\ keeps_running channel text = true).
Proof.
  assert (Hthanks : any_in ["thank"; "thanks"] text = contains "thank" text).
  { unfold any_in. cbn [existsb]. rewrite orb_false_r.
    destruct (contains "thanks" text) eqn:E.
    - rewrite (contains_prefix "thank" "thanks" text eq_refl E). reflexivity.
    - apply orb_false_r. }
  split; [exact Hthanks|]. split.
  - unfold keeps_running, branch_of. rewrite Hthanks.
    unfold any_in. cbn [existsb]. rewrite orb_false_r.
    destruct (wake_up channel text); [split; [discriminate | intros (H & _); discriminate]|].
    destruct (contains "time" text);
      [split; [discriminate | intros (_ & H & _); discriminate]|].
    destruct (contains "thank" text);
      [split; [discriminate | intros (_ & _ & H & _); discriminate]|].
    destruct (contains "exit" text), (contains "close" text),
      (contains "bye" text); cbn [orb];
      try (split; [intros _; repeat split; auto | reflexivity]).
    destruct (text =? "ERROR")%string;
      (split; [discriminate | intros (_ & _ & _ & [H | [H | H]]); discriminate]).
  - intros ->. unfold keeps_running, branch_of, wake_up.
    cbn [lower]. now rewrite contains_empty.
Qed.

(** * The engine on Python's numbers *)

Module PyFacts.

Import Py.

(** ** The order on keys without [nan] *)

Ltac z_cases :=
  repeat (match goal with
          | H : context [Z.ltb ?x ?y] |- _ => destruct (Z.ltb_spec x y)
          | H : context [Z.eqb ?x ?y] |- _ => destruct (Z.eqb_spec x y)
          | |- context [Z.ltb ?x ?y] => destruct (Z.ltb_spec x y)
          | |- context [Z.eqb ?x ?y] => destruct (Z.eqb_spec x y)
          end; cbn [ltb eqb sub orb] in *).

Ltac num_cases :=
  unfold key_le, key_ltb, good_key, is_number, leb in *; cbn [fst snd] in *;
  repeat match goal with
  | a : Num |- _ => destruct a; try congruence
  end;
  cbn [ltb eqb sub orb] in *;
  try congruence; try tauto;
  z_cases; try congruence; try lia; try (f_equal; lia).

Lemma eqb_eq a b : eqb a b = true -> a = b.
Proof. num_cases. Qed.

Lemma eqb_refl a : is_number a -> eqb a a = true.
Proof. num_cases. Qed.

Lemma leb_le_number a b : leb a b = true -> is_number a /\ is_number b.
Proof. num_cases; split; congruence. Qed.

Lemma key_ltb_irrefl a : key_ltb a a = false.
Proof. destruct a as [a1 a2]. num_cases. Qed.

Lemma key_ltb_asym a b : key_ltb a b = true -> key_ltb b a = false.
Proof. destruct a as [a1 a2], b as [b1 b2]. num_cases. Qed.

Lemma py_key_le_refl a : key_le a a.
Proof. apply key_ltb_irrefl. Qed.

Lemma py_key_le_trans a b c :
  good_key a -> good_key b -> good_key c ->
  key_le a b -> key_le b c -> key_le a c.
Proof.
  destruct a as [a1 a2], b as [b1 b2], c as [c1 c2].
  intros [? ?] [? ?] [? ?]. num_cases.
Qed.

Lemma key_lt_le_trans a b c :
  good_key a -> good_key b -> good_key c ->
  key_ltb a b = true -> key_le b c -> key_ltb a c = true.
Proof.
  destruct a as [a1 a2], b as [b1 b2], c as [c1 c2].
  intros [? ?] [? ?] [? ?]. num_cases.
Qed.

Lemma py_key_le_antisym a b :
  good_key a -> good_key b -> key_le a b -> key_le b a -> a = b.
Proof.
  destruct a as [a1 a2], b as [b1 b2].
  intros [? ?] [? ?]. num_cases.
Qed.

Lemma py_key_le_total a b : key_le a b \/ key_le b a.
Proof.
  unfold key_le. destruct (key_ltb b a) eqn:E; [|now left].
  right. now apply key_ltb_asym.
Qed.

Lemma py_ranks_before_trans : forall x y z,
  ranks_before x y -> ranks_before y z -> ranks_before x z.
Proof.
  intros x y z (Gx & Gy & Hxy) (_ & Gz & Hyz).
  split; [exact Gx|]. split; [exact Gz|].
  now apply (py_key_le_trans _ (sort_key y)).
Qed.

Lemma ranks_before_refl x : good x -> ranks_before x x.
Proof. intros G. split; [exact G|]. split; [exact G|]. apply py_key_le_refl. Qed.

Lemma has_key_sound k c : has_key k c = true -> sort_key c = k.
Proof.
  unfold has_key. rewrite andb_true_iff. intros [H1 H2].
  apply eqb_eq in H1, H2. destruct (sort_key c), k. simpl in *. congruence.
Qed.

Lemma py_has_key_own c : good c -> has_key (sort_key c) c = true.
Proof.
  intros [G1 G2]. unfold has_key. now rewrite !eqb_refl.
Qed.

Lemma py_with_key_cons k x l :
  with_key k (x :: l) = if has_key k x then x :: with_key k l else with_key k l.
Proof. reflexivity. Qed.

Lemma with_key_app k l1 l2 :
  with_key k (l1 ++ l2) = (with_key k l1 ++ with_key k l2)%list.
Proof. apply filter_app. Qed.

(** ** The sort rearranges, whatever the keys *)

Lemma ascending_run_app l : forall prev,
  (fst (ascending_run prev l) ++ snd (ascending_run prev l))%list = l.
Proof.
  induction l as [|x l IH]; intros prev; simpl; [reflexivity|].
  destruct (cand_ltb x prev); [reflexivity|].
  specialize (IH x). destruct (ascending_run x l) as [run rest].
  simpl in *. now rewrite IH.
Qed.

Lemma descending_run_app l : forall prev,
  (fst (descending_run prev l) ++ snd (descending_run prev l))%list = l.
Proof.
  induction l as [|x l IH]; intros prev; simpl; [reflexivity|].
  destruct (cand_ltb x prev); [|reflexivity].
  specialize (IH x). destruct (descending_run x l) as [run rest].
  simpl in *. now rewrite IH.
Qed.

Lemma count_run_perm l :
  Permutation (fst (count_run l) ++ snd (count_run l)) l.
Proof.
  destruct l as [|x0 [|x1 l]]; try apply Permutation_refl.
  unfold count_run. destruct (cand_ltb x1 x0).
  - pose proof (descending_run_app l x1) as H.
    destruct (descending_run x1 l) as [run rest]. cbn [fst snd] in *.
    rewrite <- H.
    change (x0 :: x1 :: run ++ rest)%list
      with ((x0 :: x1 :: run) ++ rest)%list.
    apply Permutation_app_tail, Permutation_sym, Permutation_rev.
  - pose proof (ascending_run_app l x1) as H.
    destruct (ascending_run x1 l) as [run rest]. cbn [fst snd] in *.
    rewrite <- H. apply Permutation_refl.
Qed.

Lemma insert_pivot_perm a p : Permutation (insert_pivot a p) (a ++ [p]).
Proof.
  unfold insert_pivot.
  set (k := bisect (List.length a) p a 0 (List.length a)).
  rewrite <- (firstn_skipn k a) at 3. rewrite <- app_assoc.
  apply Permutation_app_head, Permutation_cons_append.
Qed.

Lemma binarysort_perm rest : forall run,
  Permutation (binarysort run rest) (run ++ rest).
Proof.
  unfold binarysort. induction rest as [|x rest IH]; intros run; simpl.
  - rewrite app_nil_r. apply Permutation_refl.
  - rewrite IH.
    change (run ++ x :: rest)%list with (run ++ [x] ++ rest)%list.
    rewrite app_assoc. apply Permutation_app_tail, insert_pivot_perm.
Qed.

Lemma sort_perm l : Permutation (sort l) l.
Proof.
  unfold sort. pose proof (count_run_perm l) as H.
  destruct (count_run l) as [run rest]. cbn [fst snd] in H.
  now rewrite binarysort_perm.
Qed.

(** ** On keys without [nan] the sort is a stable sort *)

(** [y] goes after [x] in a run that descends. *)
Definition falls (x y : Candidate) : Prop :=
  good x /\ good y /\ cand_ltb y x = true.

Lemma falls_trans : forall x y z, falls x y -> falls y z -> falls x z.
Proof.
  intros x y z (Gx & Gy & Hyx) (_ & Gz & Hzy).
  split; [exact Gx|]. split; [exact Gz|].
  unfold cand_ltb in *.
  apply (key_lt_le_trans _ (sort_key y)); try assumption.
  unfold key_le. now apply key_ltb_asym.
Qed.

Lemma falls_ranks x y : falls x y -> ranks_before y x.
Proof.
  intros (Gx & Gy & H). split; [exact Gy|]. split; [exact Gx|].
  unfold key_le. now apply key_ltb_asym.
Qed.

Lemma ascending_run_sorted l : forall prev,
  good prev -> Forall good l ->
  Sorted ranks_before (prev :: fst (ascending_run prev l)).
Proof.
  induction l as [|x l IH]; intros prev Gp Gl; simpl.
  - repeat constructor.
  - inversion Gl as [|? ? Gx Gl']; subst.
    destruct (cand_ltb x prev) eqn:E; [repeat constructor|].
    specialize (IH x Gx Gl'). destruct (ascending_run x l) as [run rest].
    cbn [fst] in *. constructor; [exact IH|].
    constructor. split; [exact Gp|]. split; [exact Gx | exact E].
Qed.

Lemma descending_run_sorted l : forall prev,
  good prev -> Forall good l ->
  Sorted falls (prev :: fst (descending_run prev l)).
Proof.
  induction l as [|x l IH]; intros prev Gp Gl; simpl.
  - repeat constructor.
  - inversion Gl as [|? ? Gx Gl']; subst.
    destruct (cand_ltb x prev) eqn:E; [|repeat constructor].
    specialize (IH x Gx Gl'). destruct (descending_run x l) as [run rest].
    cbn [fst] in *. constructor; [exact IH|].
    constructor. split; [exact Gp|]. split; [exact Gx | exact E].
Qed.

Lemma strongly_sorted_snoc {A} (R : A -> A -> Prop) l a :
  StronglySorted R l -> Forall (fun y => R y a) l ->
  StronglySorted R (l ++ [a]).
Proof.
  induction 1 as [|x l HS IH Hx]; intros Ha; simpl.
  - repeat constructor.
  - inversion Ha; subst. constructor; [now apply IH|].
    apply Forall_app. split; [exact Hx | now constructor].
Qed.

Lemma strongly_sorted_app {A} (R : A -> A -> Prop) l1 l2 :
  StronglySorted R l1 -> StronglySorted R l2 ->
  (forall x y, In x l1 -> In y l2 -> R x y) ->
  StronglySorted R (l1 ++ l2).
Proof.
  induction 1 as [|x l HS IH Hx]; intros H2 Hc; simpl; [exact H2|].
  constructor.
  - apply IH; [exact H2|]. intros a b Ha Hb. apply Hc; [now right | exact Hb].
  - apply Forall_app. split; [exact Hx|].
    apply Forall_forall. intros y Hy. apply Hc; [now left | exact Hy].
Qed.

Lemma strongly_sorted_app_inv {A} (R : A -> A -> Prop) l1 l2 :
  StronglySorted R (l1 ++ l2) ->
  StronglySorted R l1 /\ StronglySorted R l2
  /\ forall x y, In x l1 -> In y l2 -> R x y.
Proof.
  induction l1 as [|x l1 IH]; simpl; intros H.
  - split; [constructor|]. split; [exact H|]. intros x y [].
  - inversion H as [|? ? HS Hx]; subst.
    destruct (IH HS) as (H1 & H2 & Hc).
    apply Forall_app in Hx. destruct Hx as (Hx1 & Hx2).
    split; [now constructor|]. split; [exact H2|].
    intros a b [<- | Ha] Hb.
    + rewrite Forall_forall in Hx2. now apply Hx2.
    + now apply Hc.
Qed.

Lemma rev_of_falling l :
  StronglySorted falls l -> StronglySorted ranks_before (rev l).
Proof.
  induction 1 as [|x l HS IH Hx]; simpl; [constructor|].
  apply strongly_sorted_snoc; [exact IH|].
  apply Forall_forall. intros y Hy. apply in_rev in Hy.
  rewrite Forall_forall in Hx. now apply falls_ranks, Hx.
Qed.

(** In a run that descends no two candidates have one key. *)
Lemma with_key_of_falling k l :
  StronglySorted falls l -> (List.length (with_key k l) <= 1)%nat.
Proof.
  induction 1 as [|x l HS IH Hx]; simpl; [lia|].
  fold (with_key k l). destruct (has_key k x) eqn:Ex; [|exact IH].
  assert (E : with_key k l = []).
  { destruct (with_key k l) as [|y t] eqn:Ey; [reflexivity|].
    assert (Hy : In y (with_key k l)) by (rewrite Ey; now left).
    unfold with_key in Hy. apply filter_In in Hy. destruct Hy as (Hin & Hk).
    rewrite Forall_forall in Hx. destruct (Hx y Hin) as (_ & _ & Hlt).
    apply has_key_sound in Ex, Hk. unfold cand_ltb in Hlt.
    rewrite Ex, Hk, key_ltb_irrefl in Hlt. discriminate Hlt. }
  rewrite E. simpl. lia.
Qed.

Lemma with_key_rev_of_falling k l :
  StronglySorted falls l -> with_key k (rev l) = with_key k l.
Proof.
  intros HS. unfold with_key. rewrite filter_rev.
  fold (with_key k l). pose proof (with_key_of_falling k l HS) as Hlen.
  destruct (with_key k l) as [|x [|y t]]; try reflexivity.
  simpl in Hlen. lia.
Qed.

Lemma strongly_sorted_nth {A} (R : A -> A -> Prop) a d :
  StronglySorted R a ->
  forall i j, (i < j < List.length a)%nat -> R (nth i a d) (nth j a d).
Proof.
  induction 1 as [|x l HS IH Hx]; intros i j Hij; simpl in Hij; [lia|].
  destruct j as [|j]; [lia|]. destruct i as [|i]; simpl.
  - rewrite Forall_forall in Hx. apply Hx, nth_In. lia.
  - apply IH. lia.
Qed.

(** The binary search on a sorted list: before the place it returns no
    item is greater than the pivot, from that place on every item is. *)
Lemma bisect_spec p a :
  good p -> StronglySorted ranks_before a ->
  forall fuel l r,
    (l <= r <= List.length a)%nat -> (r - l <= fuel)%nat ->
    (forall i, (i < l)%nat -> cand_ltb p (nth i a p) = false) ->
    (forall i, (r <= i < List.length a)%nat ->
               cand_ltb p (nth i a p) = true) ->
    let k := bisect fuel p a l r in
    (k <= List.length a)%nat
    /\ (forall i, (i < k)%nat -> cand_ltb p (nth i a p) = false)
    /\ (forall i, (k <= i < List.length a)%nat ->
                  cand_ltb p (nth i a p) = true).
Proof.
  intros Gp HS. induction fuel as [|fuel IH]; intros l r Hlr Hf Hlo Hhi.
  - simpl. assert (r = l) by lia. subst r. repeat split; try lia; assumption.
  - cbn [bisect]. cbv zeta. destruct (l <? r)%nat eqn:E.
    + apply Nat.ltb_lt in E.
      assert (Hd : ((r - l) / 2 < r - l)%nat) by (apply Nat.div_lt; lia).
      set (m := (l + (r - l) / 2)%nat) in *.
      assert (Hm : (l <= m < r)%nat) by (unfold m; lia).
      destruct (cand_ltb p (nth m a p)) eqn:Em.
      * apply IH; try lia; [exact Hlo|].
        intros i Hi. destruct (Nat.eq_dec i m) as [->|Hne]; [exact Em|].
        assert (Hr : ranks_before (nth m a p) (nth i a p))
          by (apply strongly_sorted_nth; [exact HS | lia]).
        destruct Hr as (Gm & Gi & Hle). unfold cand_ltb in *.
        now apply (key_lt_le_trans _ (sort_key (nth m a p))).
      * apply IH; try lia; [|exact Hhi].
        intros i Hi. destruct (Nat.eq_dec i m) as [->|Hne]; [exact Em|].
        assert (Hr : ranks_before (nth i a p) (nth m a p))
          by (apply strongly_sorted_nth; [exact HS | lia]).
        destruct Hr as (Gi & Gm & Hle). unfold cand_ltb in *.
        apply (py_key_le_trans _ (sort_key (nth m a p))); assumption.
    + apply Nat.ltb_ge in E. assert (r = l) by lia. subst r.
      repeat split; try lia; assumption.
Qed.

Lemma insert_pivot_spec a p :
  good p -> StronglySorted ranks_before a ->
  exists before after,
    a = (before ++ after)%list
    /\ insert_pivot a p = (before ++ p :: after)%list
    /\ Forall (fun x => cand_ltb p x = false) before
    /\ Forall (fun x => cand_ltb p x = true) after.
Proof.
  intros Gp HS. unfold insert_pivot.
  destruct (bisect_spec p a Gp HS (List.length a) 0 (List.length a))
    as (Hk & Hlo & Hhi); try lia.
  set (k := bisect (List.length a) p a 0 (List.length a)) in *.
  exists (firstn k a), (skipn k a).
  split; [symmetry; apply firstn_skipn|]. split; [reflexivity|]. split.
  - apply Forall_forall. intros x Hx.
    apply (In_nth _ _ p) in Hx. destruct Hx as (i & Hi & <-).
    rewrite length_firstn in Hi. rewrite nth_firstn.
    assert (E : (i <? k)%nat = true) by (apply Nat.ltb_lt; lia).
    rewrite E. apply Hlo. lia.
  - apply Forall_forall. intros x Hx.
    apply (In_nth _ _ p) in Hx. destruct Hx as (i & Hi & <-).
    rewrite length_skipn in Hi. rewrite nth_skipn. apply Hhi. lia.
Qed.

Lemma with_key_none k l :
  (forall y, In y l -> has_key k y = false) -> with_key k l = [].
Proof.
  induction l as [|x l IH]; intros H; [reflexivity|].
  rewrite py_with_key_cons, (H x (or_introl eq_refl)).
  apply IH. intros y Hy. apply H. now right.
Qed.

Lemma insert_pivot_sorted a p :
  good p -> Forall good a -> StronglySorted ranks_before a ->
  StronglySorted ranks_before (insert_pivot a p)
  /\ Forall good (insert_pivot a p)
  /\ forall k, with_key k (insert_pivot a p) = with_key k (a ++ [p]).
Proof.
  intros Gp Ga HS.
  destruct (insert_pivot_spec a p Gp HS)
    as (before & after & Ha & -> & Hb & Haf).
  subst a. apply strongly_sorted_app_inv in HS.
  destruct HS as (HSb & HSa & Hcross).
  apply Forall_app in Ga. destruct Ga as (Gb & Gaf).
  rewrite Forall_forall in Hb, Haf, Gb, Gaf.
  split; [|split].
  - apply strongly_sorted_app; [exact HSb | |].
    + constructor; [exact HSa|]. apply Forall_forall. intros y Hy.
      split; [exact Gp|]. split; [now apply Gaf|].
      unfold key_le. apply key_ltb_asym. now apply Haf.
    + intros x y Hx [<- | Hy].
      * split; [now apply Gb|]. split; [exact Gp|]. now apply Hb.
      * now apply Hcross.
  - apply Forall_app. split; [now apply Forall_forall|].
    constructor; [exact Gp | now apply Forall_forall].
  - intros k. rewrite !with_key_app, !py_with_key_cons.
    destruct (has_key k p) eqn:Ek; [|now rewrite app_nil_r].
    rewrite (with_key_none k after); [now rewrite app_nil_r|].
    intros y Hy. destruct (has_key k y) eqn:Ey; [|reflexivity].
    apply has_key_sound in Ek, Ey. specialize (Haf y Hy).
    unfold cand_ltb in Haf. rewrite Ek, Ey, key_ltb_irrefl in Haf.
    discriminate Haf.
Qed.

Lemma binarysort_sorted rest : forall run,
  Forall good run -> Forall good rest ->
  StronglySorted ranks_before run ->
  StronglySorted ranks_before (binarysort run rest)
  /\ forall k, with_key k (binarysort run rest) = with_key k (run ++ rest).
Proof.
  unfold binarysort. induction rest as [|x rest IH]; intros run Gr Gx HS; simpl.
  - split; [exact HS|]. intros k. now rewrite app_nil_r.
  - inversion Gx as [|? ? Gx0 Gx']; subst.
    destruct (insert_pivot_sorted run x Gx0 Gr HS) as (HS' & G' & Hk').
    destruct (IH (insert_pivot run x) G' Gx' HS') as (HS'' & Hk'').
    split; [exact HS''|]. intros k.
    rewrite Hk'', !with_key_app, Hk', with_key_app, <- app_assoc.
    change (x :: rest) with ([x] ++ rest)%list. now rewrite with_key_app.
Qed.

Lemma count_run_sorted l :
  Forall good l ->
  StronglySorted ranks_before (fst (count_run l))
  /\ Forall good (fst (count_run l)) /\ Forall good (snd (count_run l))
  /\ forall k, with_key k (fst (count_run l) ++ snd (count_run l))
               = with_key k l.
Proof.
  intros G.
  assert (Hperm : Forall good (fst (count_run l) ++ snd (count_run l))).
  { apply Forall_forall. intros x Hx.
    rewrite Forall_forall in G. apply G.
    apply (Permutation_in _ (count_run_perm l)), Hx. }
  apply Forall_app in Hperm. destruct Hperm as (G1 & G2).
  split; [|split; [exact G1|split; [exact G2|]]].
  - destruct l as [|x0 [|x1 l]]; try (simpl; repeat constructor).
    inversion G as [|? ? G0 G']; subst. inversion G' as [|? ? Gx1 Gl]; subst.
    unfold count_run. destruct (cand_ltb x1 x0) eqn:E.
    + pose proof (descending_run_sorted l x1 Gx1 Gl) as HS.
      destruct (descending_run x1 l) as [run rest]. cbn [fst] in *.
      apply (rev_of_falling (x0 :: x1 :: run)).
      apply Sorted_StronglySorted; [exact falls_trans|].
      constructor; [exact HS|]. constructor.
      split; [exact G0|]. split; [exact Gx1 | exact E].
    + pose proof (ascending_run_sorted l x1 Gx1 Gl) as HS.
      destruct (ascending_run x1 l) as [run rest]. cbn [fst] in *.
      apply Sorted_StronglySorted; [exact py_ranks_before_trans|].
      constructor; [exact HS|]. constructor.
      split; [exact G0|]. split; [exact Gx1 | exact E].
  - intros k.
    destruct l as [|x0 [|x1 l]]; try (simpl; now rewrite ?app_nil_r).
    inversion G as [|? ? G0 G']; subst. inversion G' as [|? ? Gx1 Gl]; subst.
    unfold count_run. destruct (cand_ltb x1 x0) eqn:E.
    + pose proof (descending_run_sorted l x1 Gx1 Gl) as HS.
      pose proof (descending_run_app l x1) as Happ.
      destruct (descending_run x1 l) as [run rest]. cbn [fst snd] in *.
      rewrite with_key_app.
      rewrite (with_key_rev_of_falling k (x0 :: x1 :: run)).
      * rewrite <- with_key_app. simpl. now rewrite Happ.
      * apply Sorted_StronglySorted; [exact falls_trans|].
        constructor; [exact HS|]. constructor.
        split; [exact G0|]. split; [exact Gx1 | exact E].
    + pose proof (ascending_run_app l x1) as Happ.
      destruct (ascending_run x1 l) as [run rest]. cbn [fst snd] in *.
      simpl. now rewrite Happ.
Qed.

(** On candidates whose keys have no [nan] the result is in key order and
    keeps, for every key, the candidates of that key in the order of the
    input. *)
Lemma sort_sorted l :
  Forall good l ->
  StronglySorted ranks_before (sort l)
  /\ forall k, with_key k (sort l) = with_key k l.
Proof.
  intros G. unfold sort.
  destruct (count_run_sorted l G) as (HS & G1 & G2 & Hk).
  destruct (count_run l) as [run rest]. cbn [fst snd] in *.
  destruct (binarysort_sorted rest run G1 G2 HS) as (HS' & Hk').
  split; [exact HS'|]. intros k. now rewrite Hk', Hk.
Qed.

Lemma ascending_run_all l : forall prev,
  StronglySorted ranks_before (prev :: l) -> ascending_run prev l = (l, []).
Proof.
  induction l as [|x l IH]; intros prev HS; simpl; [reflexivity|].
  inversion HS as [|? ? HS' Hp]; subst.
  inversion Hp as [|? ? (_ & _ & Hle) _]; subst.
  unfold cand_ltb. unfold key_le in Hle. rewrite Hle.
  now rewrite (IH x HS').
Qed.

(** A list in key order is left as it is. *)
Lemma sort_fixed l : StronglySorted ranks_before l -> sort l = l.
Proof.
  intros HS. unfold sort.
  destruct l as [|x0 [|x1 l]]; try reflexivity.
  unfold count_run.
  inversion HS as [|? ? HS' Hp]; subst.
  inversion Hp as [|? ? (_ & _ & Hle) _]; subst.
  unfold cand_ltb. unfold key_le in Hle. rewrite Hle.
  now rewrite (ascending_run_all l x1 HS').
Qed.

Lemma sort_cons_nonempty c0 l : exists b t, sort (c0 :: l) = b :: t.
Proof.
  pose proof (sort_perm (c0 :: l)) as HP.
  destruct (sort (c0 :: l)) as [|b t].
  - apply Permutation_nil in HP. discriminate.
  - now exists b, t.
Qed.

(** The head of the ranked list is a candidate that may stand before every
    other one. *)
Lemma sort_hd c0 l :
  Forall good (c0 :: l) ->
  let best := hd c0 (sort (c0 :: l)) in
  In best (c0 :: l) /\ forall c, In c (c0 :: l) -> ranks_before best c.
Proof.
  intros G best. subst best.
  pose proof (sort_perm (c0 :: l)) as HP.
  destruct (sort_sorted (c0 :: l) G) as (HS & _).
  destruct (sort_cons_nonempty c0 l) as (b & t & E).
  rewrite E in *. cbn [hd]. split.
  - apply (Permutation_in _ HP). now left.
  - intros c Hc. apply (Permutation_in _ (Permutation_sym HP)) in Hc.
    inversion HS as [|? ? _ Hall]; subst.
    destruct Hc as [<- | Hc].
    + apply ranks_before_refl. rewrite Forall_forall in G. apply G.
      apply (Permutation_in _ HP). now left.
    + rewrite Forall_forall in Hall. now apply Hall.
Qed.

(** There is one stable sorted list: every list in key order that keeps, for
    each key, the candidates of that key as they stand in [l] is [sort l].
    Any stable sort returns it. *)
Lemma py_stable_sorted_unique l1 : forall l2,
  Forall good l1 -> Forall good l2 ->
  StronglySorted ranks_before l1 -> StronglySorted ranks_before l2 ->
  (forall k, with_key k l1 = with_key k l2) ->
  l1 = l2.
Proof.
  induction l1 as [|x l1 IH]; intros [|y l2] G1 G2 S1 S2 H.
  - reflexivity.
  - inversion G2 as [|? ? Gy _]; subst.
    specialize (H (sort_key y)). rewrite py_with_key_cons, py_has_key_own in H.
    + discriminate H.
    + exact Gy.
  - inversion G1 as [|? ? Gx _]; subst.
    specialize (H (sort_key x)). rewrite py_with_key_cons, py_has_key_own in H.
    + discriminate H.
    + exact Gx.
  - inversion G1 as [|? ? Gx G1']; subst. inversion G2 as [|? ? Gy G2']; subst.
    inversion S1 as [|? ? S1' Hx]; subst. inversion S2 as [|? ? S2' Hy]; subst.
    rewrite Forall_forall in Hx, Hy.
    assert (Hin : forall k c, In c (with_key k (x :: l1)) ->
                    y = c \/ In c l2).
    { intros k c Hc. rewrite H in Hc. unfold with_key in Hc.
      apply filter_In in Hc. destruct Hc as (Hc & _). exact Hc. }
    assert (Hin' : forall k c, In c (with_key k (y :: l2)) ->
                     x = c \/ In c l1).
    { intros k c Hc. rewrite <- H in Hc. unfold with_key in Hc.
      apply filter_In in Hc. destruct Hc as (Hc & _). exact Hc. }
    assert (Hyx : ranks_before y x).
    { destruct (Hin (sort_key x) x) as [-> | Hc].
      - rewrite py_with_key_cons, py_has_key_own by exact Gx. now left.
      - now apply ranks_before_refl.
      - now apply Hy. }
    assert (Hxy : ranks_before x y).
    { destruct (Hin' (sort_key y) y) as [-> | Hc].
      - rewrite py_with_key_cons, py_has_key_own by exact Gy. now left.
      - now apply ranks_before_refl.
      - now apply Hx. }
    assert (Hk : sort_key x = sort_key y).
    { destruct Hxy as (_ & _ & L1). destruct Hyx as (_ & _ & L2).
      now apply py_key_le_antisym. }
    assert (Hx0 : x = y).
    { specialize (H (sort_key x)).
      rewrite !py_with_key_cons, py_has_key_own in H by exact Gx.
      rewrite Hk, py_has_key_own in H by exact Gy. now injection H. }
    subst y. f_equal. apply IH; try assumption.
    intros k. specialize (H k). rewrite !py_with_key_cons in H.
    destruct (has_key k x); [now injection H | exact H].
Qed.

Lemma py_sort_unique l l' :
  Forall good l -> Forall good l' ->
  StronglySorted ranks_before l' ->
  (forall k, with_key k l' = with_key k l) ->
  l' = sort l.
Proof.
  intros G G' HS HK.
  destruct (sort_sorted l G) as (HS' & HK').
  apply py_stable_sorted_unique; try assumption.
  - apply Forall_forall. intros x Hx. rewrite Forall_forall in G. apply G.
    apply (Permutation_in _ (sort_perm l)), Hx.
  - intros k. now rewrite HK'.
Qed.

(** ** The loop *)

Lemma py_scan_rules_frozen now rules w d : forall acc,
  scan_rules rules w d acc (frozen now)
  = ((acc ++ map (with_surplus w) (filter (eligible now w d) rules))%list,
     frozen now).
Proof.
  induction rules as [|r rest IH]; intros acc; simpl.
  - unfold ret. now rewrite app_nil_r.
  - unfold bind, eligible.
    destruct (matches r w d); simpl.
    + unfold flight_available, bind, datetime_now, ret.
      change (fun n : nat => frozen now (S n)) with (frozen now).
      change (frozen now 0%nat) with now.
      destruct (available_at r now).
      * rewrite IH, <- app_assoc. reflexivity.
      * apply IH.
    + unfold ret. apply IH.
Qed.

Lemma py_candidates_run_frozen now rules w d :
  candidates_run (frozen now) rules w d
  = map (with_surplus w) (filter (eligible now w d) rules).
Proof. unfold candidates_run. now rewrite py_scan_rules_frozen. Qed.

Lemma py_scan_rules_Forall (P : Candidate -> Prop) rules w d :
  (forall r, In r rules -> matches r w d = true -> P (with_surplus w r)) ->
  forall acc clock,
    Forall P acc -> Forall P (fst (scan_rules rules w d acc clock)).
Proof.
  induction rules as [|r rest IH]; intros HP acc clock Hacc; simpl.
  - exact Hacc.
  - assert (HP' : forall r', In r' rest -> matches r' w d = true ->
                             P (with_surplus w r'))
      by (intros r' Hin; apply HP; now right).
    unfold bind. destruct (matches r w d) eqn:Em.
    + unfold flight_available, bind, datetime_now, ret.
      destruct (available_at r (clock 0%nat)).
      * apply IH; [exact HP'|].
        apply Forall_app; split; [exact Hacc|].
        constructor; [|constructor]. apply HP; [now left|exact Em].
      * now apply IH.
    + unfold ret. now apply IH.
Qed.

Lemma py_candidates_run_sound clock rules w d r s :
  In (r, s) (candidates_run clock rules w d) ->
  In r rules /\ matches r w d = true /\ s = sub (max_weight r) w.
Proof.
  unfold candidates_run. intros Hin.
  pose proof (py_scan_rules_Forall
    (fun c => In (fst c) rules /\ matches (fst c) w d = true
              /\ snd c = sub (max_weight (fst c)) w) rules w d) as H.
  cbv beta in H.
  assert (HF := H (fun r0 Hr Hm => conj Hr (conj Hm eq_refl)) [] clock
                  (Forall_nil _)).
  rewrite Forall_forall in HF. exact (HF _ Hin).
Qed.

Lemma py_answer_run_choose str_of clock rules w d :
  answer_run str_of clock rules w d
  = choose str_of (candidates_run clock rules w d).
Proof.
  unfold answer_run, candidates_run, find_flight, bind, ret.
  now destruct (scan_rules rules w d [] clock).
Qed.

Lemma selected_cons c0 l : selected (c0 :: l) = Some (hd c0 (sort (c0 :: l))).
Proof. reflexivity. Qed.

Lemma selected_none l : selected l = None <-> l = [].
Proof. destruct l; simpl; split; try reflexivity; discriminate. Qed.

Lemma good_key_le_parts k1 k2 :
  good_key k1 -> good_key k2 -> key_le k1 k2 ->
  ltb (fst k2) (fst k1) = false
  /\ (eqb (fst k2) (fst k1) = true -> ltb (snd k2) (snd k1) = false).
Proof.
  destruct k1 as [a1 a2], k2 as [b1 b2]. intros [? ?] [? ?]. num_cases.
  all: split; [reflexivity || lia || congruence | try congruence; try lia].
Qed.

(** * Ranking with and without [nan] *)

(** C1, as stated, fails.  Three rules for Oslo with capacity 120 and
    carbon footprints 5, [nan] and 3, asked for 100 kg: all three are
    candidates with surplus 20, [list.sort] leaves them as they stand, and
    [find_flight] returns the rule with carbon footprint 5 although the one
    with carbon footprint 3 has the same surplus. *)
Lemma nan_cost_hides_cheaper_flight :
  candidates_run (frozen morning) [A5; Bnan; C3] (Fin 100) "Oslo"
  = [(A5, Fin 20); (Bnan, Fin 20); (C3, Fin 20)]
  /\ sort [(A5, Fin 20); (Bnan, Fin 20); (C3, Fin 20)]
     = [(A5, Fin 20); (Bnan, Fin 20); (C3, Fin 20)]
  /\ (forall str_of,
        fst (answer_run str_of (frozen morning) [A5; Bnan; C3] (Fin 100)
               "Oslo")
        = Some A5)
  /\ eqb (Fin 20) (Fin 20) = true
  /\ ltb (carbon_footprint C3) (carbon_footprint A5) = true.
Proof. repeat split. Qed.

(** C1, amended.  When at least one candidate survives the filter and no
    candidate has [nan] for its surplus or its carbon footprint,
    [find_flight] returns a rule, and that rule is a candidate whose key
    (surplus, carbon footprint) is least in the lexicographic order: no
    candidate has a smaller surplus, and none with the same surplus has a
    smaller carbon footprint. *)
Theorem selected_has_minimal_number_key
    (clock : Clock) (rules : list Rule) (w : Num) (d : string) :
  candidates_run clock rules w d <> [] ->
  Forall good (candidates_run clock rules w d) ->
  exists best,
    (forall str_of,
       answer_run str_of clock rules w d
       = (Some best, explanation str_of best (sub (max_weight best) w)))
    /\ In (best, sub (max_weight best) w) (candidates_run clock rules w d)
    /\ forall r s,
         In (r, s) (candidates_run clock rules w d) ->
         key_ltb (s, carbon_footprint r)
                 (sub (max_weight best) w, carbon_footprint best) = false
         /\ ltb s (sub (max_weight best) w) = false
         /\ (eqb s (sub (max_weight best) w) = true ->
             ltb (carbon_footprint r) (carbon_footprint best) = false).
Proof.
  intros Hne G.
  pose proof (py_candidates_run_sound clock rules w d) as Hsound.
  assert (Hans : forall str_of, answer_run str_of clock rules w d
            = choose str_of (candidates_run clock rules w d))
    by (intros; apply py_answer_run_choose).
  destruct (candidates_run clock rules w d) as [|c0 l] eqn:E;
    [now elim Hne|].
  destruct (sort_hd c0 l G) as (Hin & Hmin).
  destruct (hd c0 (sort (c0 :: l))) as [b sb] eqn:Eb.
  destruct (Hsound _ _ Hin) as (_ & _ & ->).
  exists b. split; [|split; [exact Hin|]].
  - intros str_of. rewrite Hans. unfold choose.
    rewrite selected_cons, Eb. reflexivity.
  - intros r s Hrs. destruct (Hmin _ Hrs) as (Gb & Gr & Hle).
    split; [exact Hle|].
    apply (good_key_le_parts _ _ Gb Gr Hle).
Qed.

Lemma selected_has_minimal_number_key_witness :
  candidates_run (frozen morning) [C3; A5] (Fin 100) "Oslo" <> []
  /\ Forall good (candidates_run (frozen morning) [C3; A5] (Fin 100) "Oslo")
  /\ exists best,
       forall str_of,
         answer_run str_of (frozen morning) [C3; A5] (Fin 100) "Oslo"
         = (Some best, explanation str_of best (sub (max_weight best) (Fin 100))).
Proof.
  assert (Hne : candidates_run (frozen morning) [C3; A5] (Fin 100) "Oslo" <> [])
    by (vm_compute; discriminate).
  assert (G : Forall good
                (candidates_run (frozen morning) [C3; A5] (Fin 100) "Oslo")).
  { vm_compute. repeat constructor; discriminate. }
  split; [exact Hne|]. split; [exact G|].
  destruct (selected_has_minimal_number_key (frozen morning) [C3; A5]
              (Fin 100) "Oslo" Hne G) as (best & Hans & _).
  exists best. exact Hans.
Defined.

(** C8, as stated, fails.  Seven rules for Oslo with capacity 120 and
    carbon footprints 0, 0, 9, [nan], 1, 0, 1, asked for 100 kg: "r4" and
    "r6" tie on surplus 20 and carbon footprint 1, "r4" stands first in the
    input, and [list.sort] puts "r6" before it. *)
Lemma nan_cost_breaks_stability :
  let cands := candidates_run (frozen morning) seven (Fin 100) "Oslo" in
  map (fun c => flight (fst c)) cands
  = ["r0"; "r1"; "r2"; "r3"; "r4"; "r5"; "r6"]
  /\ map (fun c => flight (fst c)) (sort cands)
     = ["r0"; "r1"; "r5"; "r6"; "r2"; "r3"; "r4"]
  /\ with_key (Fin 20, Fin 1) cands
     = [(cost_rule "r4" (Fin 1), Fin 20); (cost_rule "r6" (Fin 1), Fin 20)]
  /\ with_key (Fin 20, Fin 1) (sort cands)
     = [(cost_rule "r6" (Fin 1), Fin 20); (cost_rule "r4" (Fin 1), Fin 20)].
Proof. repeat split. Qed.

(** C8, amended.  On candidates none of which has [nan] for its surplus or
    its carbon footprint the sort is stable: for each key the candidates of
    that key stand in the ranked list in the order they had in the input.
    It is idempotent there: ranking a ranked list gives it back.  The ranked
    list is in ascending key order and a rearrangement of the input. *)
Theorem ranking_stable_on_number_keys (l : list Candidate) :
  Forall good l ->
  (forall k, with_key k (sort l) = with_key k l)
  /\ sort (sort l) = sort l
  /\ StronglySorted ranks_before (sort l)
  /\ Permutation (sort l) l.
Proof.
  intros G. destruct (sort_sorted l G) as (HS & HK).
  split; [exact HK|]. split; [now apply sort_fixed|].
  split; [exact HS | apply sort_perm].
Qed.

Lemma ranking_stable_on_number_keys_witness :
  Forall good [(A5, Fin 20); (C3, Fin 20); (A5, Fin 20); (C3, Fin 7)]
  /\ sort (sort [(A5, Fin 20); (C3, Fin 20); (A5, Fin 20); (C3, Fin 7)])
     = sort [(A5, Fin 20); (C3, Fin 20); (A5, Fin 20); (C3, Fin 7)].
Proof.
  assert (G : Forall good
                [(A5, Fin 20); (C3, Fin 20); (A5, Fin 20); (C3, Fin 7)])
    by (repeat constructor; discriminate).
  split; [exact G|].
  apply (ranking_stable_on_number_keys _ G).
Defined.

(** * The weight range shown for a city, on Python's numbers *)

Lemma min_of_In x l : In (min_of x l) (x :: l).
Proof.
  unfold min_of. revert x. induction l as [|y l IH]; intros x; simpl.
  - now left.
  - destruct (IH (if ltb y x then y else x)) as [H | H].
    + destruct (ltb y x); rewrite <- H; [right; now left | now left].
    + right. now right.
Qed.

Lemma max_of_In x l : In (max_of x l) (x :: l).
Proof.
  unfold max_of. revert x. induction l as [|y l IH]; intros x; simpl.
  - now left.
  - destruct (IH (if ltb x y then y else x)) as [H | H].
    + destruct (ltb x y); rewrite <- H; [right; now left | now left].
    + right. now right.
Qed.

Lemma min_of_nan l : min_of NaN l = NaN.
Proof. unfold min_of. induction l as [|y l IH]; simpl; [reflexivity|].
  now destruct y. Qed.

Lemma max_of_nan l : max_of NaN l = NaN.
Proof. unfold max_of. induction l as [|y l IH]; simpl; [reflexivity|].
  exact IH. Qed.

Lemma min_of_le l : forall x,
  is_number x -> Forall is_number l ->
  is_number (min_of x l) /\ leb (min_of x l) x = true
  /\ Forall (fun y => leb (min_of x l) y = true) l.
Proof.
  unfold min_of. induction l as [|y l IH]; intros x Gx Gl; simpl.
  - split; [exact Gx|]. split; [|constructor]. revert Gx. num_cases.
  - inversion Gl as [|? ? Gy Gl']; subst.
    assert (Gk : is_number (if ltb y x then y else x))
      by (destruct (ltb y x); assumption).
    destruct (IH _ Gk Gl') as (Gm & Hm & Hall).
    set (m := fold_left (fun kept item => if ltb item kept then item else kept)
                l (if ltb y x then y else x)) in *.
    split; [exact Gm|]. clearbody m.
    split; [|constructor; [|exact Hall]].
    + revert Gx Gy Gm Hm. clear. num_cases.
    + revert Gx Gy Gm Hm. clear. num_cases.
Qed.

Lemma max_of_ge l : forall x,
  is_number x -> Forall is_number l ->
  is_number (max_of x l) /\ leb x (max_of x l) = true
  /\ Forall (fun y => leb y (max_of x l) = true) l.
Proof.
  unfold max_of. induction l as [|y l IH]; intros x Gx Gl; simpl.
  - split; [exact Gx|]. split; [|constructor]. revert Gx. num_cases.
  - inversion Gl as [|? ? Gy Gl']; subst.
    assert (Gk : is_number (if ltb x y then y else x))
      by (destruct (ltb x y); assumption).
    destruct (IH _ Gk Gl') as (Gm & Hm & Hall).
    set (m := fold_left (fun kept item => if ltb kept item then item else kept)
                l (if ltb x y then y else x)) in *.
    split; [exact Gm|]. clearbody m.
    split; [|constructor; [|exact Hall]].
    + revert Gx Gy Gm Hm. clear. num_cases.
    + revert Gx Gy Gm Hm. clear. num_cases.
Qed.

(** Whatever the numbers, a weight above the greatest number [max] returns
    is above the first item and fits no item. *)
Lemma max_of_below l : forall x w,
  ltb (max_of x l) w = true ->
  ltb x w = true /\ Forall (fun y => leb w y = false) l.
Proof.
  unfold max_of. induction l as [|y l IH]; intros x w H; simpl in *.
  - split; [exact H | constructor].
  - destruct (IH _ w H) as (Hk & Hall).
    split; [|constructor; [|exact Hall]].
    + revert Hk. clear. num_cases.
    + revert Hk. clear. num_cases.
Qed.

(** X7.  When [update_cargo_limits] shows a range for the selected city,
    each of its two numbers is the capacity of a rule of that city.  If no
    capacity of the city is [nan], they are the least and the greatest
    capacity: every capacity of the city lies between them and the first is
    at most the second.  If the first rule of the city has capacity [nan],
    both numbers are [nan].  The no-flights text is shown exactly when no
    rule serves the city. *)
Theorem cargo_limits_on_numbers (rules : list Rule) (city : string) :
  (cargo_limits rules city = None <-> city_rules rules city = [])
  /\ (forall str_of,
        update_cargo_limits str_of rules city
        = "No flights for selected city."
        <-> city_rules rules city = [])
  /\ forall mins maxs,
       cargo_limits rules city = Some (mins, maxs) ->
       (exists r, In r (city_rules rules city) /\ max_weight r = mins)
       /\ (exists r, In r (city_rules rules city) /\ max_weight r = maxs)
       /\ (Forall (fun r => is_number (max_weight r)) (city_rules rules city)
           -> leb mins maxs = true
              /\ forall r, In r (city_rules rules city) ->
                   leb mins (max_weight r) = true
                   /\ leb (max_weight r) maxs = true)
       /\ (forall r0 rest,
             city_rules rules city = r0 :: rest ->
             max_weight r0 = NaN ->
             mins = NaN /\ maxs = NaN).
Proof.
  unfold update_cargo_limits, cargo_limits.
  destruct (city_rules rules city) as [|r0 l] eqn:E.
  - simpl. split; [tauto|]. split; [tauto|]. discriminate.
  - cbn [map]. split; [split; discriminate|]. split.
    + intros str_of. split; [|discriminate].
      intros H. cbn [append] in H. discriminate H.
    + intros mins maxs H. injection H as <- <-.
      split; [|split; [|split]].
      * pose proof (min_of_In (max_weight r0) (map max_weight l)) as H.
        change (max_weight r0 :: map max_weight l)
          with (map max_weight (r0 :: l)) in H.
        apply in_map_iff in H. destruct H as (r & Hr & Hin). now exists r.
      * pose proof (max_of_In (max_weight r0) (map max_weight l)) as H.
        change (max_weight r0 :: map max_weight l)
          with (map max_weight (r0 :: l)) in H.
        apply in_map_iff in H. destruct H as (r & Hr & Hin). now exists r.
      * intros G. inversion G as [|? ? G0 Gl]; subst.
        assert (Gl' : Forall is_number (map max_weight l)).
        { apply Forall_forall. intros y Hy. apply in_map_iff in Hy.
          destruct Hy as (r & <- & Hr). rewrite Forall_forall in Gl.
          now apply Gl. }
        destruct (min_of_le _ _ G0 Gl') as (Gm & Hm0 & Hml).
        destruct (max_of_ge _ _ G0 Gl') as (GM & HM0 & HMl).
        rewrite Forall_forall in Hml, HMl. split.
        -- revert G0 Gm GM Hm0 HM0. clear.
           generalize (min_of (max_weight r0) (map max_weight l)).
           generalize (max_of (max_weight r0) (map max_weight l)).
           generalize (max_weight r0). intros a b c. num_cases.
        -- intros r [<- | Hr]; [now split|].
           assert (In (max_weight r) (map max_weight l)) by now apply in_map.
           split; [now apply Hml | now apply HMl].
      * intros r0' rest H Hnan. injection H as <- <-.
        rewrite Hnan. now rewrite min_of_nan, max_of_nan.
Qed.

Lemma no_guard_no_candidate clock rules w d :
  (forall r, In r rules -> matches r w d = false) ->
  candidates_run clock rules w d = [].
Proof.
  intros Hno.
  destruct (candidates_run clock rules w d) as [|[r s] l] eqn:E;
    [reflexivity|].
  assert (Hin : In (r, s) (candidates_run clock rules w d))
    by (rewrite E; now left).
  apply py_candidates_run_sound in Hin. destruct Hin as (Hr & Hm & _).
  rewrite (Hno r Hr) in Hm. discriminate Hm.
Qed.

(** X8.  The range on the label against what [find_flight] does.  When the
    label shows no flights for the city, or the weight is above the upper
    number, [find_flight] finds no flight at any clock.  The lower number is
    no lower bound: if no capacity of the city is [nan], then for a weight
    at or below the lower number every rule of the city passes the capacity
    test, so with the clock standing at [now] the candidates are all the
    rules of the city that are available at [now]. *)
Theorem shown_range_on_numbers
    (rules : list Rule) (city : string) (w : Num) :
  (cargo_limits rules city = None ->
   forall str_of clock,
     answer_run str_of clock rules w city = (None, no_flight_message))
  /\ forall mins maxs,
       cargo_limits rules city = Some (mins, maxs) ->
       (ltb maxs w = true ->
        forall str_of clock,
          answer_run str_of clock rules w city = (None, no_flight_message))
       /\ (Forall (fun r => is_number (max_weight r)) (city_rules rules city)
           -> leb w mins = true ->
           forall now,
             candidates_run (frozen now) rules w city
             = map (fun r => (r, sub (max_weight r) w))
                   (filter (fun r => available_at r now)
                           (city_rules rules city))).
Proof.
  assert (Hcity : forall r, In r rules ->
            (lower (destination r) =? lower city)%string = true ->
            In r (city_rules rules city)).
  { intros r Hr Hd. unfold city_rules. apply filter_In. now split. }
  assert (Hnone : forall str_of clock,
            candidates_run clock rules w city = [] ->
            answer_run str_of clock rules w city = (None, no_flight_message)).
  { intros str_of clock H. rewrite py_answer_run_choose, H. reflexivity. }
  split.
  - intros Hn str_of clock. apply Hnone, no_guard_no_candidate.
    intros r Hr. unfold matches.
    destruct (lower (destination r) =? lower city)%string eqn:Hd;
      [|reflexivity].
    apply (Hcity r Hr) in Hd. unfold cargo_limits in Hn.
    destruct (city_rules rules city); [destruct Hd | discriminate Hn].
  - intros mins maxs Hsome. split.
    + intros Hw str_of clock. apply Hnone, no_guard_no_candidate.
      intros r Hr. unfold matches.
      destruct (lower (destination r) =? lower city)%string eqn:Hd;
        [|reflexivity].
      apply (Hcity r Hr) in Hd. unfold cargo_limits in Hsome.
      destruct (city_rules rules city) as [|r0 l]; [destruct Hd|].
      cbn [map] in Hsome. injection Hsome as <- <-.
      destruct (max_of_below _ _ _ Hw) as (H0 & Hl).
      simpl. destruct Hd as [<- | Hd].
      * revert H0. clear. generalize (max_weight r0). intros a. num_cases.
      * rewrite Forall_forall in Hl. apply Hl. now apply in_map.
    + intros G Hw now. rewrite py_candidates_run_frozen. unfold city_rules.
      f_equal. apply filter_twice.
      intros r Hr. unfold eligible, matches.
      destruct (lower (destination r) =? lower city)%string eqn:Hd;
        [|reflexivity].
      apply (Hcity r Hr) in Hd.
      assert (Hle : leb w (max_weight r) = true).
      { unfold cargo_limits in Hsome.
        destruct (city_rules rules city) as [|r0 l]; [destruct Hd|].
        cbn [map] in Hsome. injection Hsome as <- <-.
        inversion G as [|? ? G0 Gl]; subst.
        assert (Gl' : Forall is_number (map max_weight l)).
        { apply Forall_forall. intros y Hy. apply in_map_iff in Hy.
          destruct Hy as (r' & <- & Hr'). rewrite Forall_forall in Gl.
          now apply Gl. }
        destruct (min_of_le _ _ G0 Gl') as (Gm & Hm0 & Hml).
        assert (Hmr : leb (min_of (max_weight r0) (map max_weight l))
                          (max_weight r) = true).
        { destruct Hd as [<- | Hd]; [exact Hm0|].
          rewrite Forall_forall in Hml. apply Hml. now apply in_map. }
        revert Hw Hmr. clear.
        generalize (min_of (max_weight r0) (map max_weight l)).
        generalize (max_weight r). intros a b. num_cases. }
      now rewrite Hle.
Qed.

(** * Adding a rule, and the order of the rules, on Python's numbers *)

Lemma best_kept_on_append c0 l c :
  Forall good (c0 :: l ++ [c]) ->
  ranks_before (hd c0 (sort (c0 :: l))) c ->
  hd c0 (sort (c0 :: l ++ [c])) = hd c0 (sort (c0 :: l)).
Proof.
  intros G Hbc.
  assert (G0 : Forall good (c0 :: l)).
  { change (c0 :: l ++ [c]) with ((c0 :: l) ++ [c])%list in G.
    now apply Forall_app in G. }
  destruct (sort_hd c0 l G0) as (Hbin & Hbmin).
  destruct (sort_hd c0 (l ++ [c]) G) as (Hhin & Hhmin).
  destruct (sort_sorted (c0 :: l) G0) as (_ & Hst).
  destruct (sort_sorted (c0 :: l ++ [c]) G) as (_ & Hst').
  destruct (sort_cons_nonempty c0 l) as (b & t & Es).
  destruct (sort_cons_nonempty c0 (l ++ [c])) as (h & t' & Es').
  rewrite Es in Hbin, Hbmin, Hbc, Hst |- *.
  rewrite Es' in Hhin, Hhmin, Hst' |- *.
  cbn [hd] in *.
  assert (Hhb : ranks_before h b).
  { apply Hhmin. change (c0 :: l ++ [c]) with ((c0 :: l) ++ [c])%list.
    apply in_or_app. now left. }
  assert (Hbh : ranks_before b h).
  { change (c0 :: l ++ [c]) with ((c0 :: l) ++ [c])%list in Hhin.
    apply in_app_or in Hhin. destruct Hhin as [Hin | [<- | []]].
    - now apply Hbmin.
    - exact Hbc. }
  destruct Hhb as (Gh & Gb & L1). destruct Hbh as (_ & _ & L2).
  assert (Hk : sort_key h = sort_key b) by now apply py_key_le_antisym.
  pose proof (Hst (sort_key b)) as H1. pose proof (Hst' (sort_key b)) as H2.
  rewrite py_with_key_cons, py_has_key_own in H1 by exact Gb.
  rewrite py_with_key_cons, <- Hk, py_has_key_own, Hk in H2 by exact Gh.
  change (c0 :: l ++ [c]) with ((c0 :: l) ++ [c])%list in H2.
  rewrite with_key_app, <- H1 in H2.
  now injection H2.
Qed.

Lemma best_replaced_on_append c0 l c :
  Forall good (c0 :: l ++ [c]) ->
  cand_ltb c (hd c0 (sort (c0 :: l))) = true ->
  hd c0 (sort (c0 :: l ++ [c])) = c.
Proof.
  intros G Hlt.
  assert (G0 : Forall good (c0 :: l)).
  { change (c0 :: l ++ [c]) with ((c0 :: l) ++ [c])%list in G.
    now apply Forall_app in G. }
  destruct (sort_hd c0 l G0) as (_ & Hbmin).
  destruct (sort_hd c0 (l ++ [c]) G) as (Hhin & Hhmin).
  set (b := hd c0 (sort (c0 :: l))) in *.
  set (h := hd c0 (sort (c0 :: l ++ [c]))) in *.
  change (c0 :: l ++ [c]) with ((c0 :: l) ++ [c])%list in Hhin.
  apply in_app_or in Hhin. destruct Hhin as [Hin | [Hc | []]].
  - exfalso. destruct (Hbmin h Hin) as (Gb & Gh & Lbh).
    assert (Hhc : ranks_before h c).
    { apply Hhmin. change (c0 :: l ++ [c]) with ((c0 :: l) ++ [c])%list.
      apply in_or_app. right. now left. }
    destruct Hhc as (_ & Gc & Lhc).
    assert (Lbc : key_le (sort_key b) (sort_key c))
      by (apply (py_key_le_trans _ (sort_key h)); assumption).
    unfold cand_ltb in Hlt. unfold key_le in Lbc. congruence.
  - now symmetry.
Qed.

Lemma candidates_run_frozen_append now rules new w d :
  candidates_run (frozen now) (rules ++ [new]) w d
  = (candidates_run (frozen now) rules w d
     ++ (if eligible now w d new then [with_surplus w new] else []))%list.
Proof.
  rewrite !py_candidates_run_frozen, filter_app, map_app. simpl.
  now destruct (eligible now w d new).
Qed.

(** X12.  With the clock standing at [now], a rule added at the end of the
    rule set changes the answer only by winning.  The answer stays as it
    was when the new rule is not eligible.  When it is eligible and nothing
    was selected before, it is selected.  When a flight was selected before
    and no candidate, the new one included, has [nan] for its surplus or
    its carbon footprint, the answer stays as it was unless the key
    (surplus, carbon footprint) of the new rule is smaller than the key of
    that flight, a tie included, and the new rule is selected when its key
    is smaller. *)
Theorem added_rule_wins_only_if_strictly_better
    (now : DateTime) (rules : list Rule) (new : Rule) (w : Num) (d : string) :
  let before := candidates_run (frozen now) rules w d in
  let after := candidates_run (frozen now) (rules ++ [new]) w d in
  (eligible now w d new = false -> after = before)
  /\ (eligible now w d new = true -> before = [] ->
      selected after = Some (new, sub (max_weight new) w))
  /\ (forall best,
        selected before = Some best ->
        eligible now w d new = true ->
        Forall good after ->
        (cand_ltb (new, sub (max_weight new) w) best = false ->
         selected after = Some best)
        /\ (cand_ltb (new, sub (max_weight new) w) best = true ->
            selected after = Some (new, sub (max_weight new) w)))
  /\ (forall str_of,
        selected after = selected before ->
        answer_run str_of (frozen now) (rules ++ [new]) w d
        = answer_run str_of (frozen now) rules w d).
Proof.
  intros before after. unfold before, after.
  rewrite candidates_run_frozen_append.
  split; [|split; [|split]].
  - intros ->. now rewrite app_nil_r.
  - intros -> ->. reflexivity.
  - intros best Hsel -> G.
    destruct (candidates_run (frozen now) rules w d) as [|c0 l] eqn:E;
      [discriminate|].
    change ((c0 :: l) ++ [with_surplus w new])%list
      with (c0 :: l ++ [with_surplus w new]) in *.
    rewrite selected_cons in Hsel |- *. injection Hsel as <-.
    assert (G0 : Forall good (c0 :: l)).
    { change (c0 :: l ++ [with_surplus w new])
        with ((c0 :: l) ++ [with_surplus w new])%list in G.
      now apply Forall_app in G. }
    assert (Gn : good (with_surplus w new)).
    { rewrite Forall_forall in G. apply G.
      change (c0 :: l ++ [with_surplus w new])
        with ((c0 :: l) ++ [with_surplus w new])%list.
      apply in_or_app. right. now left. }
    destruct (sort_hd c0 l G0) as (Hin & _).
    assert (Gb : good (hd c0 (sort (c0 :: l))))
      by (rewrite Forall_forall in G0; now apply G0).
    split.
    + intros Hle. f_equal. apply best_kept_on_append; [exact G|].
      split; [exact Gb|]. split; [exact Gn | exact Hle].
    + intros Hlt. f_equal. now apply best_replaced_on_append.
  - intros str_of Hsel. rewrite !py_answer_run_choose.
    rewrite candidates_run_frozen_append. unfold choose. now rewrite Hsel.
Qed.

(** X14.  With the clock standing at [now] and no candidate having [nan]
    for its surplus or its carbon footprint, the order of the rules matters
    for exact ties only: two rule sets with the same rules in another order
    both find no flight, or both select a flight, and the two flights have
    the same surplus and the same carbon footprint. *)
Theorem rule_order_matters_only_for_ties
    (now : DateTime) (rules rules' : list Rule) (w : Num) (d : string) :
  Permutation rules rules' ->
  Forall good (candidates_run (frozen now) rules w d) ->
  (selected (candidates_run (frozen now) rules w d) = None
   <-> selected (candidates_run (frozen now) rules' w d) = None)
  /\ forall b b',
       selected (candidates_run (frozen now) rules w d) = Some b ->
       selected (candidates_run (frozen now) rules' w d) = Some b' ->
       snd b = snd b'
       /\ carbon_footprint (fst b) = carbon_footprint (fst b').
Proof.
  intros HP G.
  assert (HPc : Permutation (candidates_run (frozen now) rules w d)
                            (candidates_run (frozen now) rules' w d)).
  { rewrite !py_candidates_run_frozen. apply Permutation_map.
    now apply filter_perm. }
  assert (G' : Forall good (candidates_run (frozen now) rules' w d)).
  { apply Forall_forall. intros x Hx. rewrite Forall_forall in G. apply G.
    apply (Permutation_in _ (Permutation_sym HPc)), Hx. }
  rewrite !selected_none.
  destruct (candidates_run (frozen now) rules w d) as [|c0 l];
    destruct (candidates_run (frozen now) rules' w d) as [|c0' l'].
  - split; [tauto|]. intros b b' H. discriminate H.
  - apply Permutation_nil in HPc. discriminate.
  - apply Permutation_sym, Permutation_nil in HPc. discriminate.
  - split; [split; discriminate|].
    intros b b'. rewrite !selected_cons.
    destruct (sort_hd c0 l G) as (Hin & Hmin).
    destruct (sort_hd c0' l' G') as (Hin' & Hmin').
    intros H H'. injection H as <-. injection H' as <-.
    set (x := hd c0 (sort (c0 :: l))) in *.
    set (x' := hd c0' (sort (c0' :: l'))) in *.
    assert (H1 : ranks_before x x').
    { apply Hmin. apply (Permutation_in _ (Permutation_sym HPc)), Hin'. }
    assert (H2 : ranks_before x' x).
    { apply Hmin'. apply (Permutation_in _ HPc), Hin. }
    destruct H1 as (Gx & Gx' & L1). destruct H2 as (_ & _ & L2).
    assert (Hk : sort_key x = sort_key x') by now apply py_key_le_antisym.
    unfold sort_key in Hk. now injection Hk.
Qed.

Lemma rule_order_matters_only_for_ties_witness :
  Permutation [A5; C3] [C3; A5]
  /\ Forall good (candidates_run (frozen morning) [A5; C3] (Fin 100) "Oslo")
  /\ (selected (candidates_run (frozen morning) [A5; C3] (Fin 100) "Oslo")
      = None
      <-> selected (candidates_run (frozen morning) [C3; A5] (Fin 100) "Oslo")
          = None).
Proof.
  assert (HP : Permutation [A5; C3] [C3; A5]) by apply perm_swap.
  assert (G : Forall good
                (candidates_run (frozen morning) [A5; C3] (Fin 100) "Oslo")).
  { vm_compute. repeat constructor; discriminate. }
  split; [exact HP|]. split; [exact G|].
  apply (rule_order_matters_only_for_ties morning [A5; C3] [C3; A5]
           (Fin 100) "Oslo" HP G).
Defined.

End PyFacts.

(** * The integer embedding inside the embedding on Python's numbers *)

Lemma as_py_matches r w d :
  Py.matches (as_py_rule r) (Py.Fin w) d = matches r w d.
Proof.
  unfold Py.matches, matches, Py.leb. simpl.
  f_equal. destruct (Z.leb_spec w (max_weight r)) as [H | H].
  - destruct (Z.ltb_spec w (max_weight r)); [reflexivity|].
    simpl. apply Z.eqb_eq. lia.
  - destruct (Z.ltb_spec w (max_weight r)); [lia|].
    simpl. apply Z.eqb_neq. lia.
Qed.

Lemma as_py_available r now :
  Py.available_at (as_py_rule r) now = available_at r now.
Proof.
  unfold Py.available_at, available_at, departure_on. simpl.
  now destruct (strptime_HM (departure_time r)).
Qed.

Lemma as_py_scan rules w d : forall acc clock,
  Py.scan_rules (map as_py_rule rules) (Py.Fin w) d
    (map as_py_candidate acc) clock
  = (map as_py_candidate (fst (scan_rules rules w d acc clock)),
     snd (scan_rules rules w d acc clock)).
Proof.
  induction rules as [|r rest IH]; intros acc clock; simpl.
  - reflexivity.
  - unfold bind. rewrite as_py_matches. destruct (matches r w d).
    + unfold Py.flight_available, flight_available, bind, datetime_now, ret.
      rewrite as_py_available.
      destruct (available_at r (clock 0%nat)).
      * rewrite <- IH. f_equal. now rewrite map_app.
      * apply IH.
    + unfold ret. apply IH.
Qed.

Lemma as_py_key_ltb x y :
  Py.cand_ltb (as_py_candidate x) (as_py_candidate y)
  = key_ltb (sort_key x) (sort_key y).
Proof.
  unfold Py.cand_ltb, Py.key_ltb, key_ltb, Py.sort_key, sort_key. simpl.
  destruct (Z.eqb_spec (snd x) (snd y)) as [E | E].
  - rewrite E, Z.ltb_irrefl. simpl.
    destruct (Z.eqb_spec (carbon_footprint (fst x)) (carbon_footprint (fst y)))
      as [E' | E']; [|reflexivity].
    rewrite E'. symmetry. apply Z.ltb_irrefl.
  - now rewrite orb_false_r.
Qed.

Lemma as_py_good c : Py.good (as_py_candidate c).
Proof. split; discriminate. Qed.

Lemma as_py_with_key k l :
  Py.with_key k (map as_py_candidate l)
  = match k with
    | (Py.Fin a, Py.Fin b) => map as_py_candidate (with_key (a, b) l)
    | _ => []
    end.
Proof.
  induction l as [|c l IH]; simpl.
  - destruct k as [[| |a|] [| |b|]]; reflexivity.
  - unfold Py.with_key in *. simpl. rewrite IH.
    destruct k as [[| |a|] [| |b|]]; try reflexivity;
      unfold Py.has_key; simpl; rewrite ?andb_false_r; try reflexivity.
    unfold with_key. simpl. unfold has_key. simpl.
    now destruct ((snd c =? a) && (carbon_footprint (fst c) =? b)).
Qed.

(** On integers the sort of the embedding on Python's numbers is the stable
    sort of the integer embedding. *)
Lemma as_py_sort l :
  Py.sort (map as_py_candidate l) = map as_py_candidate (sort_candidates l).
Proof.
  symmetry. apply PyFacts.py_sort_unique.
  - apply Forall_forall. intros x Hx. apply in_map_iff in Hx.
    destruct Hx as (c & <- & _). apply as_py_good.
  - apply Forall_forall. intros x Hx. apply in_map_iff in Hx.
    destruct Hx as (c & <- & _). apply as_py_good.
  - pose proof (sort_candidates_sorted l) as HS.
    apply Sorted_StronglySorted in HS; [|exact ranks_before_trans].
    induction HS as [|c s HS IH Hc]; simpl; constructor; [exact IH|].
    apply Forall_forall. intros y Hy. apply in_map_iff in Hy.
    destruct Hy as (c' & <- & Hc'). rewrite Forall_forall in Hc.
    split; [apply as_py_good|]. split; [apply as_py_good|].
    unfold Py.key_le. change (Py.key_ltb (Py.sort_key (as_py_candidate c'))
                                (Py.sort_key (as_py_candidate c)))
      with (Py.cand_ltb (as_py_candidate c') (as_py_candidate c)).
    rewrite as_py_key_ltb. apply key_ltb_ge. now apply Hc.
  - intros k. rewrite !as_py_with_key.
    destruct k as [[| |a|] [| |b|]]; try reflexivity.
    now rewrite sort_candidates_with_key.
Qed.

(** On a rule set and a weight that are integers the two embeddings give
    the same answer. *)
Lemma as_py_answer clock rules w d :
  Py.answer_run str_of_int clock (map as_py_rule rules) (Py.Fin w) d
  = (option_map as_py_rule (fst (answer_run clock rules w d)),
     snd (answer_run clock rules w d)).
Proof.
  unfold Py.answer_run, Py.find_flight, answer_run, find_flight, bind, ret.
  pose proof (as_py_scan rules w d [] clock) as H. simpl in H. rewrite H.
  destruct (scan_rules rules w d [] clock) as [cands clock']. cbn [fst snd].
  unfold Py.choose, Py.selected, choose.
  destruct cands as [|c0 l]; [reflexivity|].
  change (as_py_candidate c0 :: map as_py_candidate l)
    with (map as_py_candidate (c0 :: l)).
  rewrite as_py_sort.
  pose proof (sort_candidates_perm (c0 :: l)) as HP.
  destruct (sort_candidates (c0 :: l)) as [|[b s] t].
  - apply Permutation_nil in HP. discriminate.
  - reflexivity.
Qed.
